(** * pog: the tokenizer of include/pog/tokenizer.h

    A shallow embedding of [pog::Tokenizer] (token and state registry,
    input stream stack, the longest-match loop of [next_token]) and the
    properties of its scanning algorithm.

    The regular-expression library (RE2) is an external collaborator.  It is
    taken as an interface: an anchored single-pattern match that yields the
    size of the matched piece, and the multi-pattern query of a compiled
    [RE2::Set] that yields the vector of indices of the matching patterns.

    The input stack is a [std::vector] of entries that each hold their text
    by value and a view into it.  What the standard library leaves to the
    implementation there (when the vector moves its entries, and whether a
    moved string keeps its characters where they are) is an interface as
    well. *)

From Stdlib Require Import ZArith Lia Ascii String.
From stdpp Require Import base option list sorting gmap strings.

Local Open Scope Z_scope.
Local Open Scope nat_scope.

(** ** The pattern engine *)

Module RE2.

(** What the tokenizer asks of the engine.
    - [re_ok p]: the pattern [p] parses ([RE2::Set::Add] leaves its error
      string empty).
    - [re_match p text]: [RE2::Match(text, 0, text.size(), ANCHOR_START,
      &submatch, 1)] on the regexp built from [p]; [Some n] when it
      matches and [submatch] then has size [n], [None] when it does not
      (and [submatch] is left as it was).
    - [set_match ps text]: the vector that [RE2::Set::Match] fills for a
      compiled set, anchored at the start, whose patterns were added in
      the order [ps]: the indices of the patterns that match. *)
Class Engine := {
  re_ok : string → bool;
  re_match : string → string → option nat;
  set_match : list string → string → list nat;
}.

(** The contract of the engine: a match lies inside the text, and the set
    query reports exactly the indices of the matching patterns.  The order
    of the reported indices is not part of the contract. *)
Class EngineLaws (E : Engine) := {
  re_match_size : ∀ p text n,
    re_match p text = Some n → (n ≤ String.length text)%nat;
  set_match_spec : ∀ (ps : list string) text (i : nat),
    i ∈ set_match ps text ↔
    ∃ p, ps !! i = Some p ∧ is_Some (re_match p text);
}.

(** [RE2::Set]: the patterns added so far and the compiled flag.  The
    calls the library refuses (adding to a compiled set, matching before
    compiling) log an error and change nothing. *)
Record Set_ := mkSet { elem_ : list string; compiled_ : bool }.

(** [new RE2::Set(DefaultOptions, ANCHOR_START)] *)
Definition Set_new : Set_ := {| elem_ := []; compiled_ := false |}.

Section ops.
Context `{E : Engine}.

(** [Set::Add(pattern, &error)]: the set after the call and whether the
    error string was written.  Adding to a compiled set is refused
    without touching the error string; a pattern that does not parse is
    refused with an error. *)
Definition Set_Add (pattern : string) (s : Set_) : Set_ * bool :=
  if compiled_ s then (s, false)
  else if re_ok pattern
  then ({| elem_ := elem_ s ++ [pattern]; compiled_ := false |}, false)
  else (s, true).

(** Modelled from the spec: [RE2::Set::Compile()], which is not among the
    sources ([prepare] only calls it).  The first call compiles the set.
    For a set that is compiled already the specification takes finalisation
    to be idempotent, "compilation is not cumulative": the set is left as
    it is.  The library itself refuses the second call ("called more than
    once", logged as DFATAL, with the result [false]) and leaves the set
    compiled; in a build of the library that makes DFATAL fatal the call
    does not return. *)
Definition Set_Compile (s : Set_) : Set_ :=
  if compiled_ s then s else {| elem_ := elem_ s; compiled_ := true |}.

(** [Set::Match(text, &v)]: a set that was not compiled reports nothing. *)
Definition Set_Match (s : Set_) (text : string) : list nat :=
  if compiled_ s then set_match (elem_ s) text else [].

End ops.

End RE2.

Import RE2.

(** ** Integers and string pieces *)

(** [static_cast<int>] of a [std::size_t]: reduction modulo 2^32 into the
    signed range. *)
Definition static_cast_int (n : nat) : Z :=
  let r := (Z.of_nat n mod 2 ^ 32)%Z in
  if (r <? 2 ^ 31)%Z then r else (r - 2 ^ 32)%Z.

Definition INT_MAX : Z := 2147483647.

(** [re2::StringPiece::remove_prefix(n)].  Past the end of the piece the
    source is undefined; [next_token] below checks the bound before it
    calls this. *)
Fixpoint remove_prefix (n : nat) (s : string) : string :=
  match n, s with
  | O, _ => s
  | S n', String _ s' => remove_prefix n' s'
  | S _, EmptyString => EmptyString
  end.

(** [std::string_view{data, n}]: the first [n] characters. *)
Fixpoint string_view (s : string) (n : nat) : string :=
  match n, s with
  | O, _ => EmptyString
  | S n', String c s' => String c (string_view s' n')
  | S _, EmptyString => EmptyString
  end.

(** ** Outcomes of code that can abort *)

(** A call either completes, or stops at a failed [assert], or runs into
    behaviour the language leaves undefined (an index past the end of a
    vector, a null pointer). *)
Inductive Run (A : Type) : Type :=
  | Done (a : A)
  | AssertionFailed
  | Undefined.

Arguments Done {A} a.
Arguments AssertionFailed {A}.
Arguments Undefined {A}.

#[global] Instance Run_bind : MBind Run := λ A B k r,
  match r with
  | Done a => k a
  | AssertionFailed => AssertionFailed
  | Undefined => Undefined
  end.

(** A vector or pointer access that must succeed. *)
Definition defined {A} (o : option A) : Run A :=
  match o with
  | Some a => Done a
  | None => Undefined
  end.

(** ** The storage of vectors and strings *)

(** What the standard library leaves to its implementation and the input
    stack depends on.
    - [grown c]: the capacity of a vector of capacity [c] after an
      [emplace_back] that found it full and moved its elements to new
      storage.
    - [in_place text]: whether a [std::string] that holds [text] keeps the
      characters inside the string object itself (the small-string
      optimisation).  Such characters move with the object; the characters
      of any other string stay where they are when the string is moved. *)
Class Storage := {
  grown : nat → nat;
  in_place : string → bool;
}.

(** ** Data model *)

Section data.
Context {Symbol ValueT : Type}.

(** [TokenMatch<ValueT>] *)
Record TokenMatch := mkTokenMatch {
  symbol : Symbol;
  value : ValueT;
  match_length : nat;
}.

(** Modelled from the spec: the class [Token] of pog/token.h, which is not
    among the sources.  A token definition binds a pattern to an optional
    symbol, an optional action and an optional target state; its regexp
    is built from its pattern.  [has_symbol()], [has_action()] and
    [has_transition_to_state()] of the source tell [Some] from [None]. *)
Record Token := mkToken {
  get_index : nat;
  get_pattern : string;
  get_symbol : option Symbol;
  get_action : option (string → ValueT);
  get_transition_to_state : option string;
}.

(** Modelled from the spec: the setters of [Token] that the grammar
    builder calls on the pointer returned by [add_token]. *)
Definition set_action (f : string → ValueT) (t : Token) : Token :=
  {| get_index := get_index t; get_pattern := get_pattern t;
     get_symbol := get_symbol t; get_action := Some f;
     get_transition_to_state := get_transition_to_state t |}.

Definition set_transition_to_state (state : string) (t : Token) : Token :=
  {| get_index := get_index t; get_pattern := get_pattern t;
     get_symbol := get_symbol t; get_action := get_action t;
     get_transition_to_state := Some state |}.

(** Modelled from the spec: the one service of [Grammar] the tokenizer
    uses, the end-of-input symbol. *)
Record Grammar := mkGrammar { get_end_of_input_symbol : Symbol }.

(** [InputStream]: [stream] is the piece of [content] not consumed yet,
    as a view ([re2::StringPiece]) of the characters of [content]. *)
Record InputStream := mkInputStream {
  content : string;
  stream : string;
  at_end : bool;
}.

(** [StateInfo<ValueT>]: [tokens] holds pointers into the tokenizer's
    [_tokens]; a pointer is the position of the token there. *)
Record StateInfo := mkStateInfo {
  name : string;
  re_set : Set_;
  tokens : list nat;
}.

(** [Tokenizer<ValueT>].  The head of [_input_stack] is the vector's
    [back()].  [_current_state] points into [_state_info]: it is the key
    of the entry it points to.

    The vector [_input_stack] holds its entries by value, and the view
    [stream] of an entry points at the characters of the entry's own
    [content].  Two more components record what that takes:
    [_input_stack_capacity] is the vector's [capacity()], and
    [_input_stack_dangling] tells for each entry, in the order of
    [_input_stack], whether its view points at storage that has been given
    up since the view was taken. *)
Record Tokenizer := mkTokenizer {
  _grammar : Grammar;
  _tokens : list Token;
  _state_info : gmap string StateInfo;
  _input_stack : list InputStream;
  _current_state : string;
  _input_stack_capacity : nat;
  _input_stack_dangling : list bool;
}.

End data.

Arguments TokenMatch : clear implicits.
Arguments Token : clear implicits.
Arguments Grammar : clear implicits.
Arguments Tokenizer : clear implicits.

(** ** Operations of the tokenizer *)

Section tokenizer.
Context {Symbol ValueT : Type} `{E : Engine} `{M : Storage}.

(** [ValueT value{}]: the value-initialised [ValueT]. *)
Variable value_init : ValueT.

Abbreviation Token := (Token Symbol ValueT).
Abbreviation TokenMatch := (TokenMatch Symbol ValueT).
Abbreviation Tokenizer := (Tokenizer Symbol ValueT).

Definition DefaultState : string := "@default".

(** [get_or_make_state_info(name)]: the registry after the call and the
    entry the returned pointer refers to. *)
Definition get_or_make_state_info (name : string)
    (m : gmap string StateInfo) : gmap string StateInfo * StateInfo :=
  match m !! name with
  | Some info => (m, info)
  | None =>
      let info := {| name := name; re_set := Set_new; tokens := [] |} in
      (<[name := info]> m, info)
  end.

(** [get_state_info(name)]: the pointer to the entry, [None] for
    [nullptr]. *)
Definition get_state_info (name : string)
    (m : gmap string StateInfo) : option string :=
  match m !! name with
  | Some _ => Some name
  | None => None
  end.

(** [enter_state(state)]: the new [_current_state]; the assertion fails on
    a null pointer. *)
Definition enter_state (state : string) (t : Tokenizer) : Run Tokenizer :=
  match get_state_info state (_state_info t) with
  | Some p =>
      Done {| _grammar := _grammar t; _tokens := _tokens t;
              _state_info := _state_info t;
              _input_stack := _input_stack t; _current_state := p;
              _input_stack_capacity := _input_stack_capacity t;
              _input_stack_dangling := _input_stack_dangling t |}
  | None => AssertionFailed
  end.

(** The loop of [add_token] over [states], for the token at [tok]. *)
Fixpoint add_token_states (pattern : string) (tok : nat)
    (states : list string) (m : gmap string StateInfo)
    : Run (gmap string StateInfo) :=
  match states with
  | [] => Done m
  | state :: rest =>
      let '(m1, state_info) := get_or_make_state_info state m in
      let '(set', error) := Set_Add pattern (re_set state_info) in
      let state_info' :=
        {| name := name state_info; re_set := set';
           tokens := tokens state_info ++ [tok] |} in
      if error then AssertionFailed
      else add_token_states pattern tok rest (<[state := state_info']> m1)
  end.

(** [add_token(pattern, symbol, states)]: the pointer to the new token and
    the tokenizer after the call. *)
Definition add_token (pattern : string) (symbol : option Symbol)
    (states : list string) (t : Tokenizer) : Run (nat * Tokenizer) :=
  let tok := length (_tokens t) in
  let token :=
    {| get_index := tok; get_pattern := pattern; get_symbol := symbol;
       get_action := None; get_transition_to_state := None |} in
  m ← add_token_states pattern tok states (_state_info t) ;
  Done (tok,
        {| _grammar := _grammar t; _tokens := _tokens t ++ [token];
           _state_info := m; _input_stack := _input_stack t;
           _current_state := _current_state t;
           _input_stack_capacity := _input_stack_capacity t;
           _input_stack_dangling := _input_stack_dangling t |}).

(** A write through a token pointer, as in [tok->set_action(f)]. *)
Definition with_token (tok : nat) (f : Token → Token)
    (t : Tokenizer) : Tokenizer :=
  {| _grammar := _grammar t; _tokens := alter f tok (_tokens t);
     _state_info := _state_info t; _input_stack := _input_stack t;
     _current_state := _current_state t;
     _input_stack_capacity := _input_stack_capacity t;
     _input_stack_dangling := _input_stack_dangling t |}.

(** The constructor [Tokenizer(grammar)]. *)
Definition Tokenizer_new (grammar : Grammar Symbol) : Run Tokenizer :=
  let t0 :=
    {| _grammar := grammar; _tokens := [];
       _state_info := fst (get_or_make_state_info DefaultState ∅);
       _input_stack := []; _current_state := DefaultState;
       _input_stack_capacity := 0; _input_stack_dangling := [] |} in
  r ← add_token "$" (Some (get_end_of_input_symbol grammar))
        [DefaultState] t0 ;
  Done (snd r).

(** [prepare()] *)
Definition prepare (t : Tokenizer) : Tokenizer :=
  {| _grammar := _grammar t; _tokens := _tokens t;
     _state_info :=
       (λ info, {| name := name info; re_set := Set_Compile (re_set info);
                   tokens := tokens info |}) <$> _state_info t;
     _input_stack := _input_stack t;
     _current_state := _current_state t;
     _input_stack_capacity := _input_stack_capacity t;
     _input_stack_dangling := _input_stack_dangling t |}.

(** What a reallocation of [_input_stack] does to the views of the
    entries it moves: the view of an entry whose [content] keeps its
    characters in place is left pointing into the storage the vector gives
    up; the view of any other entry still points at the entry's
    characters. *)
Definition moved (stack : list InputStream) (dangling : list bool)
    : list bool :=
  zip_with (λ s d, d || in_place (content s)) stack dangling.

(** [push_input_stream(stream)], given the text read from the stream.
    [emplace_back] on a full vector reallocates: it moves the entries
    beneath to new storage and frees the old one.  The view of the new
    entry is taken afterwards, from the entry where it then is. *)
Definition push_input_stream (input : string) (t : Tokenizer) : Tokenizer :=
  let full := length (_input_stack t) =? _input_stack_capacity t in
  {| _grammar := _grammar t; _tokens := _tokens t;
     _state_info := _state_info t;
     _input_stack :=
       {| content := input; stream := input; at_end := false |}
       :: _input_stack t;
     _current_state := _current_state t;
     _input_stack_capacity :=
       if full then grown (_input_stack_capacity t)
       else _input_stack_capacity t;
     _input_stack_dangling :=
       false :: if full
                then moved (_input_stack t) (_input_stack_dangling t)
                else _input_stack_dangling t |}.

(** Whether the entry beneath the active one has a view that dangles and
    is not at its end, so that the next match on it would read storage
    that has been freed. *)
Definition uncovers_dangling (t : Tokenizer) : bool :=
  match tail (_input_stack t), tail (_input_stack_dangling t) with
  | beneath :: _, true :: _ => negb (at_end beneath)
  | _, _ => false
  end.

(** [pop_input_stream()]: [pop_back] of an empty vector is undefined.
    [pop_back] removes the last entry and keeps the capacity.  The entry
    it makes active again is the one [next_token] reads from then on
    (lines 121 and 132); reading through a dangling view is undefined.
    That is marked here, at the pop that makes such an entry active, so
    that the active stream of every tokenizer an operation hands back has
    a view that can be read; an entry at its end is never read again
    (line 116) and is handed back whatever the state of its view. *)
Definition pop_input_stream (t : Tokenizer) : Run Tokenizer :=
  match _input_stack t with
  | [] => Undefined
  | _ :: below =>
      if uncovers_dangling t then Undefined
      else
        Done {| _grammar := _grammar t; _tokens := _tokens t;
                _state_info := _state_info t; _input_stack := below;
                _current_state := _current_state t;
                _input_stack_capacity := _input_stack_capacity t;
                _input_stack_dangling := tail (_input_stack_dangling t) |}
  end.

(** *** The longest-match loop *)

(** The locals of the [for] loop of [next_token]: the size of [submatch],
    [best_match] ([None] for [nullptr]) and [longest_match]. *)
Record Best := mkBest {
  submatch : nat;
  best_match : option nat;
  longest_match : Z;
}.

Definition Best_init : Best :=
  {| submatch := 0; best_match := None; longest_match := (-1)%Z |}.

(** One round of the loop, for [pattern_index]. *)
Definition examine (t : Tokenizer) (info : StateInfo) (text : string)
    (b : Best) (pattern_index : nat) : Run Best :=
  p ← defined (tokens info !! pattern_index) ;
  token ← defined (_tokens t !! p) ;
  let sub :=
    match re_match (get_pattern token) text with
    | Some n => n
    | None => submatch b
    end in
  if (longest_match b <? static_cast_int sub)%Z
  then Done {| submatch := sub; best_match := Some p;
               longest_match := static_cast_int sub |}
  else Done {| submatch := sub; best_match := best_match b;
               longest_match := longest_match b |}.

Fixpoint examine_all (t : Tokenizer) (info : StateInfo) (text : string)
    (matched_patterns : list nat) (b : Best) : Run Best :=
  match matched_patterns with
  | [] => Done b
  | pattern_index :: rest =>
      b' ← examine t info text b pattern_index ;
      examine_all t info text rest b'
  end.

(** The [for] loop as a whole: [best_match], which the code then
    dereferences, and [longest_match]. *)
Definition select_best (t : Tokenizer) (info : StateInfo) (text : string)
    (matched_patterns : list nat) : Run (nat * Z) :=
  b ← examine_all t info text matched_patterns Best_init ;
  p ← defined (best_match b) ;
  Done (p, longest_match b).

(** What one round of the [while] loop of [next_token] does: it returns
    (an optional token match, with the tokenizer as it is then) or goes
    round again. *)
Inductive Round : Type :=
  | Return (r : option TokenMatch) (t : Tokenizer)
  | Continue (t : Tokenizer).

(** The part of the loop body after [best_match] is known (lines 140 to
    154): the test for the end of the stream, the transition, the action,
    [remove_prefix], and the result.  A [longest_match] past the end of
    the stream would make [string_view] and [remove_prefix] undefined. *)
Definition consume (t : Tokenizer) (current_input : InputStream)
    (below : list InputStream) (p : nat) (longest_match : Z) : Run Round :=
  best_match ← defined (_tokens t !! p) ;
  let at_end' :=
    if (String.length (stream current_input) =? 0)%nat
    then true else at_end current_input in
  t1 ← match get_transition_to_state best_match with
       | Some state => enter_state state t
       | None => Done t
       end ;
  let len := Z.to_nat longest_match in
  if (String.length (stream current_input) <? len)%nat then Undefined
  else
    let value :=
      match get_action best_match with
      | Some perform_action =>
          perform_action (string_view (stream current_input) len)
      | None => value_init
      end in
    let t2 :=
      {| _grammar := _grammar t1; _tokens := _tokens t1;
         _state_info := _state_info t1;
         _input_stack :=
           {| content := content current_input;
              stream := remove_prefix len (stream current_input);
              at_end := at_end' |} :: below;
         _current_state := _current_state t1;
         _input_stack_capacity := _input_stack_capacity t1;
         _input_stack_dangling := _input_stack_dangling t1 |} in
    match get_symbol best_match with
    | None => Done (Continue t2)
    | Some sym =>
        Done (Return (Some {| symbol := sym; value := value;
                              match_length := len |}) t2)
    end.

(** The body of the [while] loop. *)
Definition next_token_round (t : Tokenizer) : Run Round :=
  match _input_stack t with
  | [] => Done (Return None t)
  | current_input :: below =>
      if at_end current_input
      then Done (Return
             (Some {| symbol := get_end_of_input_symbol (_grammar t);
                      value := value_init; match_length := 0 |}) t)
      else
        info ← defined (_state_info t !! _current_state t) ;
        let matched_patterns :=
          Set_Match (re_set info) (stream current_input) in
        match matched_patterns with
        | [] => Done (Return None t)
        | _ =>
            w ← select_best t info (stream current_input)
                  matched_patterns ;
            consume t current_input below (fst w) (snd w)
        end
  end.

(** [next_token()], with a bound on the number of rounds of the loop:
    [None] when the bound is reached before the loop is left. *)
Fixpoint next_token (fuel : nat) (t : Tokenizer)
    : option (Run (option TokenMatch * Tokenizer)) :=
  match fuel with
  | O => None
  | S fuel' =>
      match next_token_round t with
      | Done (Return r t') => Some (Done (r, t'))
      | Done (Continue t') => next_token fuel' t'
      | AssertionFailed => Some AssertionFailed
      | Undefined => Some Undefined
      end
  end.

End tokenizer.

(** ** Notions used to state the properties *)

Section notions.
Context {Symbol ValueT : Type} `{E : Engine}.
Variable value_init : ValueT.

Abbreviation Tokenizer := (Tokenizer Symbol ValueT).

(** The size of the anchored match of the token at position [i] of the
    state's [tokens], if that token's pattern matches [text]. *)
Definition match_at (t : Tokenizer) (info : StateInfo) (text : string)
    (i : nat) : option nat :=
  p ← tokens info !! i;
  token ← _tokens t !! p;
  re_match (get_pattern token) text.

(** The patterns of the state's set are those of its tokens, in the same
    order: every registration went to both. *)
Definition aligned (t : Tokenizer) (info : StateInfo) : Prop :=
  (λ p, get_pattern <$> _tokens t !! p) <$> tokens info
  = Some <$> elem_ (re_set info).

(** The setting of a round of [next_token] that gets as far as the pattern
    engine: an active stream that is not at its end, the current state in
    the registry with its set compiled from its tokens' patterns, and a
    stream whose size fits [int]. *)
Record scanning (t : Tokenizer) (current_input : InputStream)
    (below : list InputStream) (info : StateInfo) : Prop := {
  sc_stack : _input_stack t = current_input :: below;
  sc_not_at_end : at_end current_input = false;
  sc_state : _state_info t !! _current_state t = Some info;
  sc_compiled : compiled_ (re_set info) = true;
  sc_aligned : aligned t info;
  sc_size : (Z.of_nat (String.length (stream current_input)) ≤ INT_MAX)%Z;
}.

(** The state a token's transition names, if it names one, is in the
    registry. *)
Definition transition_registered (t : Tokenizer)
    (token : Token Symbol ValueT) : Prop :=
  ∀ state, get_transition_to_state token = Some state →
           is_Some (_state_info t !! state).

(** [_current_state] refers to a state of the registry. *)
Definition current_state_registered (t : Tokenizer) : Prop :=
  is_Some (_state_info t !! _current_state t).

(** Every state of the registry has its set aligned with its tokens, and
    the sets are all compiled or all not yet compiled. *)
Definition registry_aligned (compiled : bool) (t : Tokenizer) : Prop :=
  ∀ k info, _state_info t !! k = Some info →
    aligned t info ∧ compiled_ (re_set info) = compiled.

(** The tokenizer a round leaves behind. *)
Definition round_tokenizer (r : Round (Symbol := Symbol) (ValueT := ValueT))
    : Tokenizer :=
  match r with
  | Return _ t => t
  | Continue t => t
  end.

(** The tokenizer after a round that consumed [n] characters of the active
    stream and left [state] current. *)
Definition consumed (t : Tokenizer) (current_input : InputStream)
    (below : list InputStream) (n : nat) (state : string) : Tokenizer :=
  {| _grammar := _grammar t; _tokens := _tokens t;
     _state_info := _state_info t;
     _input_stack :=
       {| content := content current_input;
          stream := remove_prefix n (stream current_input);
          at_end :=
            if (String.length (stream current_input) =? 0)%nat
            then true else at_end current_input |} :: below;
     _current_state := state;
     _input_stack_capacity := _input_stack_capacity t;
     _input_stack_dangling := _input_stack_dangling t |}.

(** The fallback result of line 160: the end-of-input symbol converted to
    a [TokenMatch]. *)
Definition end_of_input_match (t : Tokenizer) : TokenMatch Symbol ValueT :=
  {| symbol := get_end_of_input_symbol (_grammar t);
     value := value_init; match_length := 0 |}.

(** [skipped t t']: rounds of the loop that each consumed a skip token
    lead from [t] to [t']. *)
Inductive skipped : Tokenizer → Tokenizer → Prop :=
  | skipped_refl t : skipped t t
  | skipped_step t t1 t' :
      next_token_round value_init t = Done (Continue t1) →
      skipped t1 t' → skipped t t'.

(** [scanned t t']: completed calls of [next_token] lead from [t] to
    [t']. *)
Inductive scanned : Tokenizer → Tokenizer → Prop :=
  | scanned_refl t : scanned t t
  | scanned_step t fuel r t1 t' :
      next_token value_init fuel t = Some (Done (r, t1)) →
      scanned t1 t' → scanned t t'.

End notions.

(** ** The interface as a whole *)

Section interface.
Context {Symbol ValueT : Type} `{E : Engine} `{M : Storage}.
Variable value_init : ValueT.

Abbreviation Tokenizer := (Tokenizer Symbol ValueT).

(** [get_end_token()]: the pointer to [_tokens[0]]; undefined on an empty
    vector. *)
Definition get_end_token (t : Tokenizer) : Run nat :=
  match _tokens t with
  | [] => Undefined
  | _ :: _ => Done 0
  end.

(** The tokenizers of the set-up phase: the constructor, followed by
    registrations and by calls of the setters on the pointers that
    [add_token] returned. *)
Inductive registering : Tokenizer → Prop :=
  | registering_new grammar t :
      Tokenizer_new grammar = Done t → registering t
  | registering_add pattern symbol states t p t' :
      registering t →
      add_token pattern symbol states t = Done (p, t') → registering t'
  | registering_action tok f t :
      registering t → registering (with_token tok (set_action f) t)
  | registering_transition tok state t :
      registering t →
      registering (with_token tok (set_transition_to_state state) t).

(** The tokenizers of the scanning phase: [prepare] after the set-up,
    followed by pushes, pops, calls of [next_token] that return, and
    calls of the setters. *)
Inductive running : Tokenizer → Prop :=
  | running_prepare t : registering t → running (prepare t)
  | running_push input t :
      running t → running (push_input_stream input t)
  | running_pop t t' :
      running t → pop_input_stream t = Done t' → running t'
  | running_next fuel r t t' :
      running t →
      next_token value_init fuel t = Some (Done (r, t')) → running t'
  | running_action tok f t :
      running t → running (with_token tok (set_action f) t)
  | running_transition tok state t :
      running t →
      running (with_token tok (set_transition_to_state state) t).

(** The tokens of the state [k], none when the state is not in the
    registry. *)
Definition tokens_of (m : gmap string StateInfo) (k : string) : list nat :=
  match m !! k with
  | Some info => tokens info
  | None => []
  end.

(** The patterns of the set of the state [k]. *)
Definition patterns_of (m : gmap string StateInfo) (k : string)
    : list string :=
  match m !! k with
  | Some info => elem_ (re_set info)
  | None => []
  end.

(** No token without a symbol has a pattern that matches the empty
    text at the start of a text. *)
Definition skips_consume (t : Tokenizer) : Prop :=
  ∀ p token text,
    _tokens t !! p = Some token → get_symbol token = None →
    re_match (get_pattern token) text ≠ Some 0.

(** The value a round hands back for a token. *)
Definition value_of (token : Token Symbol ValueT) (text : string)
    (n : nat) : ValueT :=
  match get_action token with
  | Some f => f (string_view text n)
  | None => value_init
  end.

(** What the set-up establishes and every operation keeps: a token's
    index is its position, the first token is the end token, it is the
    first token of [@default], and a state's name is its key. *)
Definition set_up (t : Tokenizer) : Prop :=
  (∀ i token, _tokens t !! i = Some token → get_index token = i) ∧
  (∃ token, _tokens t !! 0 = Some token ∧ get_pattern token = "$"%string ∧
            get_symbol token
            = Some (get_end_of_input_symbol (_grammar t))) ∧
  (∃ rest, tokens_of (_state_info t) DefaultState = 0 :: rest) ∧
  (∀ k info, _state_info t !! k = Some info → name info = k).


End interface.

(** ** Reading an input stream *)

(** A [std::istream] as [push_input_stream] uses it: the characters not
    read yet and whether the stream is [good()]. *)
Record IStream := mkIStream {
  unread : string;
  good : bool;
}.

(** [stream.read(block.data(), n)] and [stream.gcount()]: the characters
    extracted and the stream after the call.  A stream with fewer than
    [n] characters left gives what it has and is no longer good; a stream
    that is not good gives nothing. *)
Definition istream_read (n : nat) (s : IStream) : string * IStream :=
  if good s then
    if n <=? String.length (unread s)
    then (string_view (unread s) n,
          {| unread := remove_prefix n (unread s); good := true |})
    else (unread s, {| unread := EmptyString; good := false |})
  else (EmptyString, s).

(** The size of [block]. *)
Definition block_size : nat := 4096.

(** The [while (stream.good())] loop of [push_input_stream], with a bound
    on the number of rounds: [None] when the bound is reached. *)
Fixpoint read_stream (fuel : nat) (s : IStream) (input : string)
    : option string :=
  match fuel with
  | O => None
  | S fuel' =>
      if good s then
        let '(block, s') := istream_read block_size s in
        read_stream fuel' s' (String.append input block)
      else Some input
  end.

Section reading.
Context {Symbol ValueT : Type} `{M : Storage}.

(** [push_input_stream(stream)] as a whole. *)
Definition push_input_stream_from (fuel : nat) (s : IStream)
    (t : Tokenizer Symbol ValueT) : option (Tokenizer Symbol ValueT) :=
  input ← read_stream fuel s EmptyString;
  Some (push_input_stream input t).

End reading.

(** ** Two engines for a small pattern language *)

(** A pattern is a text in which [.] stands for any one character, and
    ["$"] matches the end of the text.  Both engines answer the
    single-pattern query alike; [Wildcard.ascending] reports the matching
    indices of a set lowest first, [Wildcard.descending] highest first. *)
Module Wildcard.

Fixpoint wild_prefix (p text : string) : bool :=
  match p, text with
  | EmptyString, _ => true
  | String c p', String d text' =>
      (Ascii.eqb c "."%char || Ascii.eqb c d) && wild_prefix p' text'
  | String _ _, EmptyString => false
  end.

Definition wild_match (p text : string) : option nat :=
  if String.eqb p "$"
  then (if String.eqb text "" then Some 0 else None)
  else if wild_prefix p text then Some (String.length p) else None.

Fixpoint indices_from (f : string → bool) (i : nat) (ps : list string)
    : list nat :=
  match ps with
  | [] => []
  | p :: ps' =>
      if f p then i :: indices_from f (S i) ps'
      else indices_from f (S i) ps'
  end.

Definition matching (ps : list string) (text : string) : list nat :=
  indices_from
    (λ p, match wild_match p text with Some _ => true | None => false end)
    0 ps.

Definition ascending : Engine :=
  {| re_ok := λ _, true; re_match := wild_match; set_match := matching |}.

Definition descending : Engine :=
  {| re_ok := λ _, true; re_match := wild_match;
     set_match := λ ps text, reverse (matching ps text) |}.

End Wildcard.

(** ** An engine with repetition *)

(** The patterns of [Wildcard] and, in addition, a character followed by
    [+], which matches the longest run of one or more occurrences of that
    character.  The matching indices of a set are reported lowest
    first. *)
Module Repeat.

Fixpoint run_length (c : ascii) (text : string) : nat :=
  match text with
  | String d text' => if Ascii.eqb c d then S (run_length c text') else 0
  | EmptyString => 0
  end.

(** The character a pattern repeats, if it is of the form [c+]. *)
Definition repeated (p : string) : option ascii :=
  match p with
  | String c (String d EmptyString) =>
      if Ascii.eqb d "+"%char then Some c else None
  | _ => None
  end.

Definition repeat_match (p text : string) : option nat :=
  match repeated p with
  | Some c =>
      match run_length c text with
      | 0 => None
      | S n => Some (S n)
      end
  | None => Wildcard.wild_match p text
  end.

Definition engine : Engine :=
  {| re_ok := λ _, true; re_match := repeat_match;
     set_match := λ ps text,
       Wildcard.indices_from
         (λ p, match repeat_match p text with
               | Some _ => true
               | None => false
               end) 0 ps |}.

(** The text that consists of [n] times the character [c]. *)
Fixpoint run (c : ascii) (n : nat) : string :=
  match n with
  | 0 => EmptyString
  | S n' => String c (run c n')
  end.

End Repeat.

(** ** A sample of the library's storage *)

(** Vectors that double their capacity when they are full, and strings
    that keep up to 15 characters in place: what libstdc++ does. *)
Module Doubling.

Definition storage : Storage :=
  {| grown := λ c, if c =? 0 then 1 else 2 * c;
     in_place := λ text, String.length text <=? 15 |}.

End Doubling.

(** ** Sample tokenizers *)

Module Sample.

Definition grammar : Grammar string :=
  {| get_end_of_input_symbol := "$end" |}.

(** What is left when the set-up stops at an assertion: nothing is
    registered. *)
Definition nothing : Tokenizer string string :=
  {| _grammar := grammar; _tokens := []; _state_info := ∅;
     _input_stack := []; _current_state := DefaultState;
     _input_stack_capacity := 0; _input_stack_dangling := [] |}.

Definition built (r : Run (Tokenizer string string))
    : Tokenizer string string :=
  match r with
  | Done t => t
  | _ => nothing
  end.

Section with_engine.
Context `{E : Engine} `{M : Storage}.

(** In [@default]: [ab] for [S1] and [abc] for [S2] (the scenario of the
    specification, [abc] with an action that yields the matched text), a
    blank that is skipped, and [#] that is skipped and switches to the
    state [tag].  In [tag]: [x] for [X], and [!] for [BANG] with a
    transition to a state that no token is registered into. *)
Definition lexer_setup : Run (Tokenizer string string) :=
  t ← Tokenizer_new grammar;
  '(_, t) ← add_token "ab" (Some "S1") [DefaultState] t;
  '(abc, t) ← add_token "abc" (Some "S2") [DefaultState] t;
  let t := with_token abc (set_action (λ s, s)) t in
  '(_, t) ← add_token " " None [DefaultState] t;
  '(hash, t) ← add_token "#" None [DefaultState] t;
  let t := with_token hash (set_transition_to_state "tag") t in
  '(_, t) ← add_token "x" (Some "X") ["tag"] t;
  '(bang, t) ← add_token "!" (Some "BANG") ["tag"] t;
  let t := with_token bang (set_transition_to_state "nowhere") t in
  Done (prepare t).

Definition lexer (input : string) : Tokenizer string string :=
  push_input_stream input (built lexer_setup).

(** In [@default]: the keyword [if] for [KW], registered before the
    two-character pattern [..] for [ID]. *)
Definition keywords_setup : Run (Tokenizer string string) :=
  t ← Tokenizer_new grammar;
  '(_, t) ← add_token "if" (Some "KW") [DefaultState] t;
  '(_, t) ← add_token ".." (Some "ID") [DefaultState] t;
  Done (prepare t).

Definition keywords (input : string) : Tokenizer string string :=
  push_input_stream input (built keywords_setup).

(** In [@default]: [a] for [A], [a+] for [AS], and runs of blanks, which
    are skipped. *)
Definition repeats_setup : Run (Tokenizer string string) :=
  t ← Tokenizer_new grammar;
  '(_, t) ← add_token "a" (Some "A") [DefaultState] t;
  '(_, t) ← add_token "a+" (Some "AS") [DefaultState] t;
  '(_, t) ← add_token " +" None [DefaultState] t;
  Done (prepare t).

Definition repeats (input : string) : Tokenizer string string :=
  push_input_stream input (built repeats_setup).

(** The result of a call and the tokenizer after it; [nothing] stands in
    when the call does not complete. *)
Definition call (fuel : nat) (t : Tokenizer string string)
    : option (TokenMatch string string) * Tokenizer string string :=
  match next_token "" fuel t with
  | Some (Done r) => r
  | _ => (None, nothing)
  end.

(** A stream of 18 characters read up to its first blank, a stream [ab]
    pushed on top of it, the tokenizer after two calls on that, and the
    tokenizer after the pop that follows. *)
Definition outer : Tokenizer string string :=
  snd (call 1 (lexer "abc ab ab ab ab ab")).

Definition nested : Tokenizer string string :=
  push_input_stream "ab" outer.

Definition nested_read : Tokenizer string string :=
  snd (call 1 (snd (call 1 nested))).

Definition resumed : Tokenizer string string :=
  built (pop_input_stream nested_read).

(** The same on the stream [abcab], read up to its last two characters. *)
Definition short_outer : Tokenizer string string :=
  snd (call 1 (lexer "abcab")).

Definition short_nested_read : Tokenizer string string :=
  snd (call 1 (snd (call 1 (push_input_stream "ab" short_outer)))).

End with_engine.

(** The tokens of [lexer] for the blank, for [#] and for [!]. *)
Definition blank : Token string string :=
  {| get_index := 3; get_pattern := " "; get_symbol := None;
     get_action := None; get_transition_to_state := None |}.

Definition hash : Token string string :=
  {| get_index := 4; get_pattern := "#"; get_symbol := None;
     get_action := None; get_transition_to_state := Some "tag" |}.

Definition bang : Token string string :=
  {| get_index := 6; get_pattern := "!"; get_symbol := Some "BANG";
     get_action := None; get_transition_to_state := Some "nowhere" |}.

(** A stream as [push_input_stream] makes it. *)
Definition pushed (input : string) : InputStream :=
  {| content := input; stream := input; at_end := false |}.

(** The entries of the registry of [lexer] after [prepare]. *)
Definition default_info : StateInfo :=
  {| name := "@default";
     re_set := {| elem_ := ["$"; "ab"; "abc"; " "; "#"]; compiled_ := true |};
     tokens := [0; 1; 2; 3; 4] |}.

Definition tag_info : StateInfo :=
  {| name := "tag";
     re_set := {| elem_ := ["x"; "!"]; compiled_ := true |};
     tokens := [5; 6] |}.

(** The tokens of [repeats] and the entry of its registry after
    [prepare]. *)
Definition letter : Token string string :=
  {| get_index := 1; get_pattern := "a"; get_symbol := Some "A";
     get_action := None; get_transition_to_state := None |}.

Definition letters : Token string string :=
  {| get_index := 2; get_pattern := "a+"; get_symbol := Some "AS";
     get_action := None; get_transition_to_state := None |}.

Definition blanks : Token string string :=
  {| get_index := 3; get_pattern := " +"; get_symbol := None;
     get_action := None; get_transition_to_state := None |}.

Definition repeats_info : StateInfo :=
  {| name := "@default";
     re_set := {| elem_ := ["$"; "a"; "a+"; " +"]; compiled_ := true |};
     tokens := [0; 1; 2; 3] |}.

(** The entry of the registry of [keywords] after [prepare]. *)
Definition keywords_info : StateInfo :=
  {| name := "@default";
     re_set := {| elem_ := ["$"; "if"; ".."]; compiled_ := true |};
     tokens := [0; 1; 2] |}.

End Sample.

(** ** A set-up step by step *)

Module Session.

Section with_engine.
Context `{E : Engine} `{M : Storage}.

(** The tokenizer of a finished [add_token]; [Sample.nothing] stands in
    when the call stops at its assertion. *)
Definition after (r : Run (nat * Tokenizer string string))
    : Tokenizer string string :=
  match r with
  | Done (_, t) => t
  | _ => Sample.nothing
  end.

(** A set-up step by step: the constructor, then [ab] for [S1] in the
    states [@default] and [tag], then a blank that is skipped. *)
Definition start : Tokenizer string string :=
  Sample.built (Tokenizer_new Sample.grammar).

Definition with_word : Tokenizer string string :=
  after (add_token "ab" (Some "S1") [DefaultState; "tag"] start).

Definition with_blank : Tokenizer string string :=
  after (add_token " " None [DefaultState] with_word).

Definition ready (input : string) : Tokenizer string string :=
  push_input_stream input (prepare with_blank).

(** A set-up with a skip token whose pattern is empty. *)
Definition with_nothing : Tokenizer string string :=
  after (add_token "" None [DefaultState] start).

Definition stuck (input : string) : Tokenizer string string :=
  push_input_stream input (prepare with_nothing).

End with_engine.

Definition empty_skip : Token string string :=
  {| get_index := 1; get_pattern := ""; get_symbol := None;
     get_action := None; get_transition_to_state := None |}.

Definition stuck_info : StateInfo :=
  {| name := "@default";
     re_set := {| elem_ := ["$"; ""]; compiled_ := true |};
     tokens := [0; 1] |}.

Definition ready_info : StateInfo :=
  {| name := "@default";
     re_set := {| elem_ := ["$"; "ab"; " "]; compiled_ := true |};
     tokens := [0; 1; 2] |}.

End Session.

(** ** Properties of the scanning algorithm *)

Lemma static_cast_int_small (n : nat) :
  (Z.of_nat n ≤ INT_MAX)%Z → static_cast_int n = Z.of_nat n.
Proof.
  unfold static_cast_int, INT_MAX. intros Hn.
  rewrite Z.mod_small by lia.
  destruct (Z.ltb_spec (Z.of_nat n) (2 ^ 31)); lia.
Qed.

Lemma remove_prefix_length (n : nat) (s : string) :
  n ≤ String.length s →
  String.length (remove_prefix n s) = String.length s - n.
Proof.
  revert s. induction n as [|n IH]; intros [|c s]; simpl; try lia.
  intros Hn. apply IH. lia.
Qed.

(** The two sample engines keep the contract of the engine. *)

Lemma wild_prefix_length (p text : string) :
  Wildcard.wild_prefix p text = true → String.length p ≤ String.length text.
Proof.
  revert text. induction p as [|c p IH]; intros [|d text]; simpl;
    try lia; try done.
  intros [_ Hp]%andb_prop. apply IH in Hp. lia.
Qed.

Lemma wild_match_size (p text : string) (n : nat) :
  Wildcard.wild_match p text = Some n → n ≤ String.length text.
Proof.
  unfold Wildcard.wild_match.
  destruct (String.eqb p "$").
  - destruct (String.eqb text ""); [|done]. intros [= <-]. lia.
  - destruct (Wildcard.wild_prefix p text) eqn:Hp; [|done].
    intros [= <-]. by apply wild_prefix_length.
Qed.

Lemma elem_of_indices_from (f : string → bool) (ps : list string)
    (i j : nat) :
  j ∈ Wildcard.indices_from f i ps ↔
  ∃ k p, j = i + k ∧ ps !! k = Some p ∧ f p = true.
Proof.
  revert i. induction ps as [|q ps IH]; intros i; simpl.
  { split; [intros H; by apply elem_of_nil in H|].
    intros (k & p & _ & [=] & _). }
  assert (j ∈ Wildcard.indices_from f (S i) ps ↔
          ∃ k p, j = i + S k ∧ ps !! k = Some p ∧ f p = true) as Htl.
  { rewrite IH. split; intros (k & p & -> & Hk & Hp); exists k, p;
      (split; [lia|done]). }
  destruct (f q) eqn:Hq.
  - rewrite elem_of_cons, Htl. split.
    + intros [->|(k & p & -> & Hk & Hp)].
      * exists 0, q. split; [lia|done].
      * exists (S k), p. done.
    + intros ([|k] & p & -> & Hk & Hp).
      * left. lia.
      * right. exists k, p. done.
  - rewrite Htl. split.
    + intros (k & p & -> & Hk & Hp). exists (S k), p. done.
    + intros ([|k] & p & -> & Hk & Hp).
      * simpl in Hk. injection Hk as ->. congruence.
      * exists k, p. done.
Qed.

Lemma elem_of_matching (ps : list string) (text : string) (i : nat) :
  i ∈ Wildcard.matching ps text ↔
  ∃ p, ps !! i = Some p ∧ is_Some (Wildcard.wild_match p text).
Proof.
  unfold Wildcard.matching. rewrite elem_of_indices_from. split.
  - intros (k & p & -> & Hk & Hp). exists p. split; [done|].
    destruct (Wildcard.wild_match p text); [eauto|done].
  - intros (p & Hi & [n Hn]). exists i, p. by rewrite Hn.
Qed.

(** The set of [Wildcard.ascending] reports indices in increasing
    order. *)
Lemma indices_from_sorted (f : string → bool) (ps : list string) (i : nat) :
  StronglySorted lt (Wildcard.indices_from f i ps).
Proof.
  revert i. induction ps as [|p ps IH]; intros i; simpl; [constructor|].
  destruct (f p); [|apply IH].
  apply StronglySorted_cons. split; [|apply IH].
  apply Forall_forall. intros j Hj.
  apply elem_of_indices_from in Hj as (k & q & -> & _). lia.
Qed.

#[global] Instance ascending_laws : EngineLaws Wildcard.ascending.
Proof.
  split; simpl.
  - apply wild_match_size.
  - apply elem_of_matching.
Qed.

#[global] Instance descending_laws : EngineLaws Wildcard.descending.
Proof.
  split; simpl.
  - apply wild_match_size.
  - intros ps text i. rewrite elem_of_reverse. apply elem_of_matching.
Qed.

Lemma run_length_size (c : ascii) (text : string) :
  Repeat.run_length c text ≤ String.length text.
Proof.
  induction text as [|d text IH]; simpl; [lia|].
  destruct (Ascii.eqb c d); lia.
Qed.

Lemma repeat_match_size (p text : string) (n : nat) :
  Repeat.repeat_match p text = Some n → n ≤ String.length text.
Proof.
  unfold Repeat.repeat_match. destruct (Repeat.repeated p) as [c|].
  - assert (Hc := run_length_size c text).
    destruct (Repeat.run_length c text); [done|]. by intros [= <-].
  - apply wild_match_size.
Qed.

#[global] Instance repeat_laws : EngineLaws Repeat.engine.
Proof.
  split; simpl.
  - apply repeat_match_size.
  - intros ps text i. rewrite elem_of_indices_from. split.
    + intros (k & p & -> & Hk & Hp). exists p. split; [done|].
      destruct (Repeat.repeat_match p text); [eauto|done].
    + intros (p & Hi & [n Hn]). exists i, p. by rewrite Hn.
Qed.

(** A run of a character is matched whole by the repetition of that
    character. *)
Lemma run_length_run (c : ascii) (n : nat) :
  Repeat.run_length c (Repeat.run c n) = n.
Proof.
  induction n as [|n IH]; simpl; [done|].
  by rewrite Ascii.eqb_refl, IH.
Qed.

Lemma run_size (c : ascii) (n : nat) : String.length (Repeat.run c n) = n.
Proof. induction n as [|n IH]; simpl; [done|]. by rewrite IH. Qed.

Section scanning.
Context {Symbol ValueT : Type} `{E : Engine} `{M : Storage}.
Variable value_init : ValueT.

Abbreviation Tokenizer := (Tokenizer Symbol ValueT).


Lemma aligned_lookup (t : Tokenizer) info i :
  aligned t info →
  elem_ (re_set info) !! i
  = (p ← tokens info !! i; get_pattern <$> _tokens t !! p).
Proof.
  unfold aligned. intros Ha.
  assert (Hi := f_equal (λ l, l !! i) Ha). simpl in Hi.
  rewrite !list_lookup_fmap in Hi.
  destruct (tokens info !! i) as [p|], (elem_ (re_set info) !! i) as [q|];
    simpl in *; congruence.
Qed.

Context {L : EngineLaws E}.

Lemma Set_Match_spec (t : Tokenizer) info text i :
  compiled_ (re_set info) = true → aligned t info →
  i ∈ Set_Match (re_set info) text ↔ is_Some (match_at t info text i).
Proof.
  intros Hc Ha. unfold Set_Match, match_at. rewrite Hc, set_match_spec.
  rewrite (aligned_lookup t info i Ha).
  destruct (tokens info !! i) as [p|]; simpl.
  - destruct (_tokens t !! p) as [token|]; simpl.
    + split; [intros (q & [= <-] & Hq); done | intros Hq; eauto].
    + split; [intros (q & [=] & _) | intros [? [=]]].
  - split; [intros (q & [=] & _) | intros [? [=]]].
Qed.

Lemma match_at_size (t : Tokenizer) info text i n :
  match_at t info text i = Some n → n ≤ String.length text.
Proof.
  unfold match_at.
  destruct (tokens info !! i) as [p|]; simpl; [|done].
  destruct (_tokens t !! p) as [token|]; simpl; [|done].
  apply re_match_size.
Qed.

(** One round of the [for] loop on an index whose pattern matches. *)
Lemma examine_matching (t : Tokenizer) info text b i n :
  (Z.of_nat (String.length text) ≤ INT_MAX)%Z →
  match_at t info text i = Some n →
  ∃ p, tokens info !! i = Some p ∧
    examine t info text b i =
    Done (if (longest_match b <? Z.of_nat n)%Z
          then {| submatch := n; best_match := Some p;
                  longest_match := Z.of_nat n |}
          else {| submatch := n; best_match := best_match b;
                  longest_match := longest_match b |}).
Proof.
  intros Hsize Hm. assert (Hn := match_at_size _ _ _ _ _ Hm).
  unfold match_at in Hm. unfold examine.
  destruct (tokens info !! i) as [p|]; simpl in *; [|done].
  destruct (_tokens t !! p) as [token|]; simpl in *; [|done].
  rewrite Hm. exists p. split; [done|].
  rewrite static_cast_int_small by lia.
  by destruct (longest_match b <? Z.of_nat n)%Z.
Qed.

(** The [for] loop: either no index beats the incoming [longest_match] and
    the locals keep [best_match] and [longest_match], or the loop settles
    on the first index of the vector, in the order of the vector, whose
    match is longer than all before it and at least as long as all after
    it. *)
Lemma examine_all_spec (t : Tokenizer) info text (l : list nat) b :
  (Z.of_nat (String.length text) ≤ INT_MAX)%Z →
  (∀ i, i ∈ l → is_Some (match_at t info text i)) →
  ∃ b', examine_all t info text l b = Done b' ∧
    ((best_match b' = best_match b ∧ longest_match b' = longest_match b ∧
      ∀ i n, i ∈ l → match_at t info text i = Some n →
             (Z.of_nat n ≤ longest_match b)%Z)
     ∨
     (∃ l1 i l2 p n,
        l = l1 ++ i :: l2 ∧ tokens info !! i = Some p ∧
        match_at t info text i = Some n ∧
        best_match b' = Some p ∧ longest_match b' = Z.of_nat n ∧
        (longest_match b < Z.of_nat n)%Z ∧
        (∀ j m, j ∈ l1 → match_at t info text j = Some m → m < n) ∧
        (∀ j m, j ∈ l2 → match_at t info text j = Some m → m ≤ n))).
Proof.
  intros Hsize. revert b. induction l as [|i l IH]; intros b Hall.
  { exists b. split; [done|]. left. repeat split. intros i n Hi.
    by apply elem_of_nil in Hi. }
  destruct (Hall i) as [n Hn]; [by left|].
  destruct (examine_matching t info text b i n Hsize Hn) as (p & Hp & Hex).
  simpl. rewrite Hex. simpl.
  set (b1 := if (longest_match b <? Z.of_nat n)%Z then _ else _) in *.
  destruct (IH b1) as (b' & Hb' & Hcases).
  { intros j Hj. apply Hall. by right. }
  exists b'. split; [done|].
  destruct (Z.ltb_spec (longest_match b) (Z.of_nat n)) as [Hlt|Hge];
    subst b1; simpl in *.
  - right. destruct Hcases as [(Hbm & Hlm & Hrest)
      | (l1 & j & l2 & q & m & -> & Hq & Hm & Hbm & Hlm & Hlt' & Hl1 & Hl2)].
    + exists [], i, l, p, n. simpl. repeat split; try done.
      * intros j m Hj. by apply elem_of_nil in Hj.
      * intros j m Hj Hm. specialize (Hrest j m Hj Hm). lia.
    + exists (i :: l1), j, l2, q, m. simpl. repeat split; try done; [lia|].
      intros k o Hk Ho. apply elem_of_cons in Hk as [->|Hk].
      * rewrite Hn in Ho. injection Ho as <-. lia.
      * by apply (Hl1 k).
  - destruct Hcases as [(Hbm & Hlm & Hrest)
      | (l1 & j & l2 & q & m & -> & Hq & Hm & Hbm & Hlm & Hlt' & Hl1 & Hl2)].
    + left. repeat split; try done.
      intros j m Hj Hm. apply elem_of_cons in Hj as [->|Hj].
      * rewrite Hn in Hm. injection Hm as <-. lia.
      * by apply (Hrest j).
    + right. exists (i :: l1), j, l2, q, m. simpl.
      repeat split; try done.
      intros k o Hk Ho. apply elem_of_cons in Hk as [->|Hk].
      * rewrite Hn in Ho. injection Ho as <-. lia.
      * by apply (Hl1 k).
Qed.

(** The [for] loop on the vector the set reports, starting from
    [longest_match = -1]: the winner is the first index of the vector
    whose match is longer than all before it and at least as long as all
    after it. *)
Lemma select_best_spec (t : Tokenizer) current_input below info :
  scanning t current_input below info →
  (∃ i, is_Some (match_at t info (stream current_input) i)) →
  ∃ l1 i l2 p token n,
    Set_Match (re_set info) (stream current_input) = l1 ++ i :: l2 ∧
    tokens info !! i = Some p ∧ _tokens t !! p = Some token ∧
    match_at t info (stream current_input) i = Some n ∧
    (∀ j m, j ∈ l1 →
       match_at t info (stream current_input) j = Some m → m < n) ∧
    (∀ j m, j ∈ l2 →
       match_at t info (stream current_input) j = Some m → m ≤ n) ∧
    select_best t info (stream current_input)
      (Set_Match (re_set info) (stream current_input))
    = Done (p, Z.of_nat n).
Proof.
  intros [Hst Hend Hinfo Hc Ha Hsize] [i0 Hi0].
  set (text := stream current_input) in *.
  set (matched := Set_Match (re_set info) text).
  assert (Hall : ∀ i, i ∈ matched → is_Some (match_at t info text i)).
  { intros i Hi. by apply (Set_Match_spec t info text i Hc Ha). }
  assert (Hi0' : i0 ∈ matched)
    by by apply (Set_Match_spec t info text i0 Hc Ha).
  destruct (examine_all_spec t info text matched Best_init Hsize Hall)
    as (b' & Hb' & [(_ & _ & Hrest)
      | (l1 & i & l2 & p & n & Hl & Hp & Hm & Hbm & Hlm & _ & Hl1 & Hl2)]).
  { destruct Hi0 as [n Hn]. specialize (Hrest i0 n Hi0' Hn).
    simpl in Hrest. lia. }
  assert (∃ token, _tokens t !! p = Some token) as [token Htoken].
  { unfold match_at in Hm. rewrite Hp in Hm. simpl in Hm.
    destruct (_tokens t !! p) as [token|]; [eauto|done]. }
  exists l1, i, l2, p, token, n. repeat split; try done.
  unfold select_best. rewrite Hb'. simpl. rewrite Hbm. simpl.
  by rewrite Hlm.
Qed.

(** The winner's match is the longest among all tokens of the state. *)
Lemma winner_longest (t : Tokenizer) info text l1 i l2 n :
  compiled_ (re_set info) = true → aligned t info →
  Set_Match (re_set info) text = l1 ++ i :: l2 →
  match_at t info text i = Some n →
  (∀ j m, j ∈ l1 → match_at t info text j = Some m → m < n) →
  (∀ j m, j ∈ l2 → match_at t info text j = Some m → m ≤ n) →
  ∀ j m, match_at t info text j = Some m → m ≤ n.
Proof.
  intros Hc Ha Hl Hn Hl1 Hl2 j m Hm.
  assert (Hj : j ∈ Set_Match (re_set info) text).
  { apply (Set_Match_spec t info text j Hc Ha). eauto. }
  rewrite Hl in Hj. apply elem_of_app in Hj as [Hj|Hj].
  - specialize (Hl1 j m Hj Hm). lia.
  - apply elem_of_cons in Hj as [->|Hj].
    + rewrite Hn in Hm. injection Hm as <-. lia.
    + by apply (Hl2 j).
Qed.

(** The round is the loop followed by [consume] on its winner. *)
Lemma next_token_round_scanning (t : Tokenizer) current_input below info w :
  scanning t current_input below info →
  (∃ i, is_Some (match_at t info (stream current_input) i)) →
  select_best t info (stream current_input)
    (Set_Match (re_set info) (stream current_input)) = Done w →
  next_token_round value_init t
  = consume value_init t current_input below (fst w) (snd w).
Proof.
  intros Hsc [i Hi] Hw. pose proof Hsc as [Hst Hend Hinfo Hc Ha Hsize].
  unfold next_token_round. rewrite Hst, Hend, Hinfo. simpl.
  apply (Set_Match_spec t info _ i Hc Ha) in Hi.
  destruct (Set_Match (re_set info) (stream current_input)) as [|j l] eqn:Hl.
  { by apply elem_of_nil in Hi. }
  by rewrite Hw.
Qed.

(** What [consume] does with a winner inside the stream. *)
Lemma consume_spec (t : Tokenizer) current_input below p token n :
  _tokens t !! p = Some token →
  n ≤ String.length (stream current_input) →
  consume value_init t current_input below p (Z.of_nat n)
  = match get_transition_to_state token with
    | Some state =>
        match _state_info t !! state with
        | None => AssertionFailed
        | Some _ => Done state
        end
    | None => Done (_current_state t)
    end ≫= λ state,
    let t' := consumed t current_input below n state in
    match get_symbol token with
    | None => Done (Continue t')
    | Some sym =>
        Done (Return
          (Some {| symbol := sym;
                   value :=
                     match get_action token with
                     | Some f => f (string_view (stream current_input) n)
                     | None => value_init
                     end;
                   match_length := n |}) t')
    end.
Proof.
  intros Htoken Hn. unfold consume. rewrite Htoken. simpl.
  rewrite Nat2Z.id.
  assert ((String.length (stream current_input) <? n) = false) as Hlt
    by (apply Nat.ltb_ge; lia).
  destruct (get_transition_to_state token) as [state|]; simpl.
  - unfold enter_state, get_state_info.
    destruct (_state_info t !! state); simpl; [|done].
    rewrite Hlt. by destruct (get_symbol token).
  - rewrite Hlt. destruct t. by destruct (get_symbol token).
Qed.

(** What a round does once its winner is known, case by case. *)
Lemma round_of_winner (t : Tokenizer) current_input below info p token n :
  scanning t current_input below info →
  (∃ i, is_Some (match_at t info (stream current_input) i)) →
  select_best t info (stream current_input)
    (Set_Match (re_set info) (stream current_input))
  = Done (p, Z.of_nat n) →
  _tokens t !! p = Some token →
  n ≤ String.length (stream current_input) →
  (∀ state, get_transition_to_state token = Some state →
     _state_info t !! state = None →
     next_token_round value_init t = AssertionFailed) ∧
  (transition_registered t token →
   let t' := consumed t current_input below n
               (default (_current_state t) (get_transition_to_state token)) in
   next_token_round value_init t =
   Done match get_symbol token with
        | None => Continue t'
        | Some sym =>
            Return
              (Some {| symbol := sym;
                       value :=
                         match get_action token with
                         | Some f => f (string_view (stream current_input) n)
                         | None => value_init
                         end;
                       match_length := n |}) t'
        end).
Proof.
  intros Hsc Hex Hw Htoken Hn.
  rewrite (next_token_round_scanning t _ _ _ _ Hsc Hex Hw). simpl.
  rewrite (consume_spec t _ _ _ _ _ Htoken Hn). split.
  - intros state -> ->. done.
  - intros Hreg. destruct (get_transition_to_state token) as [state|] eqn:Htr.
    + destruct (Hreg state Htr) as [info' ->]. simpl.
      by destruct (get_symbol token).
    + simpl. by destruct (get_symbol token).
Qed.

(** The longest match wins on a stream whose size fits [int].  In a
    round of [next_token] on such a stream that is not at its end, when at
    least one token pattern of the current state matches at the cursor,
    the winner the loop selects is a token of the state whose anchored
    match is as long as the longest match among all tokens of the state;
    a match returned by the round has that length as its [match_length],
    and the call returns it when the winner has a symbol. *)
Theorem longest_match_wins (t : Tokenizer) current_input below info :
  scanning t current_input below info →
  (∃ i, is_Some (match_at t info (stream current_input) i)) →
  ∃ i p token n,
    tokens info !! i = Some p ∧ _tokens t !! p = Some token ∧
    select_best t info (stream current_input)
      (Set_Match (re_set info) (stream current_input))
    = Done (p, Z.of_nat n) ∧
    match_at t info (stream current_input) i = Some n ∧
    (∀ j m, match_at t info (stream current_input) j = Some m → m ≤ n) ∧
    (∀ r t', next_token_round value_init t = Done (Return r t') →
             match_length <$> r = Some n) ∧
    (∀ sym, get_symbol token = Some sym → transition_registered t token →
       ∃ v t', ∀ fuel,
         next_token value_init (S fuel) t =
         Some (Done (Some {| symbol := sym; value := v;
                             match_length := n |}, t'))).
Proof.
  intros Hsc Hex.
  destruct (select_best_spec t _ _ _ Hsc Hex)
    as (l1 & i & l2 & p & token & n & Hl & Hp & Htoken & Hm & Hl1 & Hl2 & Hw).
  assert (Hn := match_at_size _ _ _ _ _ Hm).
  destruct (round_of_winner t _ _ _ _ _ _ Hsc Hex Hw Htoken Hn)
    as [Hfail Hok].
  exists i, p, token, n. repeat split; try done.
  - destruct Hsc. by eapply winner_longest.
  - intros r t' Hr.
    destruct (get_transition_to_state token) as [state|] eqn:Htr.
    + destruct (_state_info t !! state) as [info'|] eqn:Hst.
      * rewrite Hok in Hr.
        -- destruct (get_symbol token); by simplify_eq.
        -- intros s Hs. rewrite Htr in Hs. injection Hs as <-. eauto.
      * by rewrite (Hfail state eq_refl Hst) in Hr.
    + rewrite Hok in Hr.
      * destruct (get_symbol token); by simplify_eq.
      * intros s Hs. by rewrite Htr in Hs.
  - intros sym Hsym Hreg. specialize (Hok Hreg). simpl in Hok.
    rewrite Hsym in Hok. eexists _, _. intros fuel. simpl.
    by rewrite Hok.
Qed.

(** The winner of a round is unique: whatever [select_best] yields is the
    winner of [select_best_spec]. *)
Lemma select_best_winner (t : Tokenizer) current_input below info p z :
  scanning t current_input below info →
  (∃ i, is_Some (match_at t info (stream current_input) i)) →
  select_best t info (stream current_input)
    (Set_Match (re_set info) (stream current_input)) = Done (p, z) →
  ∃ l1 i l2 token n,
    z = Z.of_nat n ∧
    Set_Match (re_set info) (stream current_input) = l1 ++ i :: l2 ∧
    tokens info !! i = Some p ∧ _tokens t !! p = Some token ∧
    match_at t info (stream current_input) i = Some n ∧
    n ≤ String.length (stream current_input) ∧
    (∀ j m, j ∈ l1 →
       match_at t info (stream current_input) j = Some m → m < n) ∧
    (∀ j m, j ∈ l2 →
       match_at t info (stream current_input) j = Some m → m ≤ n).
Proof.
  intros Hsc Hex Hw.
  destruct (select_best_spec t _ _ _ Hsc Hex)
    as (l1 & i & l2 & p' & token & n & Hl & Hp & Htoken & Hm & Hl1 & Hl2 & Hw').
  rewrite Hw in Hw'. injection Hw' as -> ->.
  exists l1, i, l2, token, n. repeat split; try done.
  by eapply match_at_size.
Qed.

(** C2, as the code has it, on a stream whose size fits [int] (fewer
    than 2^31 characters are left).  Among the tokens of the current state
    whose match is the longest, the winner is the one the pattern engine
    reports first: every index reported before the winner's has a strictly
    shorter match (a later candidate replaces the best only when it is
    strictly longer).  When the engine reports the indices in increasing
    order, the winner is the earliest-registered token among the longest
    matches. *)
Theorem first_reported_longest_wins (t : Tokenizer) current_input below
    info :
  scanning t current_input below info →
  (∃ i, is_Some (match_at t info (stream current_input) i)) →
  ∃ l1 i l2 p n,
    Set_Match (re_set info) (stream current_input) = l1 ++ i :: l2 ∧
    tokens info !! i = Some p ∧
    select_best t info (stream current_input)
      (Set_Match (re_set info) (stream current_input))
    = Done (p, Z.of_nat n) ∧
    match_at t info (stream current_input) i = Some n ∧
    (∀ j m, match_at t info (stream current_input) j = Some m → m ≤ n) ∧
    (∀ j m, j ∈ l1 →
       match_at t info (stream current_input) j = Some m → m < n) ∧
    (StronglySorted lt (Set_Match (re_set info) (stream current_input)) →
     ∀ j, match_at t info (stream current_input) j = Some n → i ≤ j).
Proof.
  intros Hsc Hex.
  destruct (select_best_spec t _ _ _ Hsc Hex)
    as (l1 & i & l2 & p & token & n & Hl & Hp & Htoken & Hm & Hl1 & Hl2 & Hw).
  exists l1, i, l2, p, n. repeat split; try done.
  - destruct Hsc. by eapply winner_longest.
  - intros Hsorted j Hj.
    assert (Hin : j ∈ Set_Match (re_set info) (stream current_input)).
    { destruct Hsc as [_ _ _ Hc Ha _].
      apply (Set_Match_spec t info _ j Hc Ha). eauto. }
    rewrite Hl in Hin, Hsorted.
    apply elem_of_app in Hin as [Hin|Hin].
    { specialize (Hl1 j n Hin Hj). lia. }
    apply elem_of_cons in Hin as [->|Hin]; [lia|].
    apply StronglySorted_app_1_r, StronglySorted_cons in Hsorted
      as [Hall _].
    rewrite Forall_forall in Hall. specialize (Hall j Hin). lia.
Qed.

(** C3, as the code has it.  A round that resolves a winner sets [at_end]
    of the active stream exactly when the stream was empty already when
    the round began, before the winner is consumed; the winner has length
    0 then.  The test is made on the stream before [remove_prefix]. *)
Theorem at_end_set_when_already_empty (t : Tokenizer) current_input below
    info :
  scanning t current_input below info →
  (∃ i, is_Some (match_at t info (stream current_input) i)) →
  ∃ p token n,
    select_best t info (stream current_input)
      (Set_Match (re_set info) (stream current_input))
    = Done (p, Z.of_nat n) ∧
    _tokens t !! p = Some token ∧
    (transition_registered t token →
     ∃ out current_input',
       next_token_round value_init t = Done out ∧
       _input_stack (round_tokenizer out) = current_input' :: below ∧
       stream current_input' = remove_prefix n (stream current_input) ∧
       (at_end current_input' = true ↔
        String.length (stream current_input) = 0) ∧
       (String.length (stream current_input) = 0 → n = 0)).
Proof.
  intros Hsc Hex.
  destruct (select_best_spec t _ _ _ Hsc Hex)
    as (l1 & i & l2 & p & token & n & Hl & Hp & Htoken & Hm & Hl1 & Hl2 & Hw).
  assert (Hn := match_at_size _ _ _ _ _ Hm).
  destruct (round_of_winner t _ _ _ _ _ _ Hsc Hex Hw Htoken Hn)
    as [_ Hok].
  exists p, token, n. repeat split; try done.
  intros Hreg. specialize (Hok Hreg). simpl in Hok.
  eexists _, _. split; [exact Hok|].
  assert (Hend := sc_not_at_end _ _ _ _ Hsc).
  destruct (get_symbol token); simpl; (split; [done|]);
    (split; [done|]); (split; [|lia]);
    destruct (Nat.eqb_spec (String.length (stream current_input)) 0);
    simpl; rewrite ?Hend; split; intros; first [done | lia].
Qed.

(** The ways a round can complete, with no assumption on the tokenizer:
    on an empty stack, on a stream at its end, on a stream no pattern
    matches, or by consuming the winner of the loop. *)
Lemma next_token_round_inv (t : Tokenizer) out :
  next_token_round value_init t = Done out →
  (_input_stack t = [] ∧ out = Return None t) ∨
  (∃ current_input below,
     _input_stack t = current_input :: below ∧
     at_end current_input = true ∧
     out = Return (Some (end_of_input_match value_init t)) t) ∨
  (∃ current_input below info,
     _input_stack t = current_input :: below ∧
     at_end current_input = false ∧
     _state_info t !! _current_state t = Some info ∧
     Set_Match (re_set info) (stream current_input) = [] ∧
     out = Return None t) ∨
  (∃ current_input below info p z token state,
     _input_stack t = current_input :: below ∧
     at_end current_input = false ∧
     _state_info t !! _current_state t = Some info ∧
     select_best t info (stream current_input)
       (Set_Match (re_set info) (stream current_input)) = Done (p, z) ∧
     _tokens t !! p = Some token ∧
     (get_transition_to_state token = Some state ∧
      is_Some (_state_info t !! state)
      ∨ get_transition_to_state token = None ∧ state = _current_state t) ∧
     round_tokenizer out
     = consumed t current_input below (Z.to_nat z) state ∧
     (get_symbol token = None ∧ out = Continue (round_tokenizer out)
      ∨ ∃ m, get_symbol token = Some (symbol m) ∧
             match_length m = Z.to_nat z ∧
             out = Return (Some m) (round_tokenizer out))).
Proof.
  unfold next_token_round. intros Hr.
  destruct (_input_stack t) as [|current_input below] eqn:Hst.
  { left. by simplify_eq. }
  right. destruct (at_end current_input) eqn:Hend.
  { left. exists current_input, below. by simplify_eq. }
  right. destruct (_state_info t !! _current_state t) as [info|] eqn:Hinfo;
    simpl in Hr; [|done].
  destruct (Set_Match (re_set info) (stream current_input))
    as [|j l] eqn:Hl.
  { left. exists current_input, below, info. by simplify_eq. }
  right. rewrite <- Hl in Hr.
  destruct (select_best t info (stream current_input)
              (Set_Match (re_set info) (stream current_input)))
    as [[p z]| |] eqn:Hw; simpl in Hr; [|done..].
  unfold consume in Hr.
  destruct (_tokens t !! p) as [token|] eqn:Htoken; simpl in Hr; [|done].
  assert (∃ state,
    (get_transition_to_state token = Some state ∧
     is_Some (_state_info t !! state)
     ∨ get_transition_to_state token = None ∧ state = _current_state t) ∧
    match get_transition_to_state token with
    | Some state => enter_state state t
    | None => Done t
    end = Done {| _grammar := _grammar t; _tokens := _tokens t;
                  _state_info := _state_info t;
                  _input_stack := _input_stack t;
                  _current_state := state;
                  _input_stack_capacity := _input_stack_capacity t;
                  _input_stack_dangling := _input_stack_dangling t |})
    as (state & Hstate & Henter).
  { destruct (get_transition_to_state token) as [state|].
    - unfold enter_state, get_state_info in *.
      destruct (_state_info t !! state) eqn:Hs; simpl in Hr; [|done].
      exists state. split; [left; eauto | done].
    - exists (_current_state t). split; [by right | by destruct t]. }
  rewrite Henter in Hr. simpl in Hr.
  destruct (String.length (stream current_input) <? Z.to_nat z);
    [done|].
  exists current_input, below, info, p, z, token, state.
  repeat split; try done.
  - destruct (get_symbol token); by simplify_eq.
  - destruct (get_symbol token) as [sym|]; simplify_eq.
    + right. eexists. split; [|split; [|reflexivity]]; done.
    + by left.
Qed.

(** A round that signals "no token" hands back the tokenizer it was given. *)
Lemma next_token_round_no_token (t t' : Tokenizer) :
  next_token_round value_init t = Done (Return None t') → t' = t.
Proof.
  intros Hr. apply next_token_round_inv in Hr
    as [[_ Hr] | [(? & ? & _ & _ & Hr) | [(? & ? & ? & _ & _ & _ & _ & Hr)
      | (? & ? & ? & ? & ? & ? & ? & _ & _ & _ & _ & _ & _ & _ & Hr)]]].
  - by simplify_eq.
  - by simplify_eq.
  - by simplify_eq.
  - destruct Hr as [[_ Hr] | (m & _ & _ & Hr)]; by simplify_eq.
Qed.


(** A round keeps [_current_state] inside the registry, and keeps the
    registry. *)
Lemma next_token_round_registered (t : Tokenizer) out :
  next_token_round value_init t = Done out →
  current_state_registered t →
  current_state_registered (round_tokenizer out).
Proof.
  intros Hr Hreg. apply next_token_round_inv in Hr
    as [[_ ->] | [(? & ? & _ & _ & ->) | [(? & ? & ? & _ & _ & _ & _ & ->)
      | (? & ? & ? & ? & ? & ? & state & _ & _ & _ & _ & _ & Hs & -> & _)]]];
    simpl; try done.
  unfold current_state_registered. simpl.
  by destruct Hs as [[_ Hs] | [_ ->]].
Qed.

(** A completed call is a run of rounds on skip tokens followed by the
    round that returns. *)
Lemma next_token_skipped fuel (t : Tokenizer) r t' :
  next_token value_init fuel t = Some (Done (r, t')) →
  ∃ t1, skipped value_init t t1 ∧
        next_token_round value_init t1 = Done (Return r t').
Proof.
  revert t. induction fuel as [|fuel IH]; intros t; simpl; [done|].
  destruct (next_token_round value_init t) as [[r1 t1|t1]| |] eqn:Hr;
    try done.
  - intros [= <- <-]. exists t. split; [constructor | done].
  - intros Hn. destruct (IH t1 Hn) as (t2 & Hsk & Hr2).
    exists t2. split; [by econstructor | done].
Qed.

(** C5. Lexical failure.  When the active stream is not at its end and no
    token pattern of the current state matches at the cursor, [next_token]
    returns "no token" and leaves the tokenizer as it was, whatever is
    left in the stream; that result is not the end-of-input result. *)
Theorem lexical_failure (t : Tokenizer) current_input below info :
  _input_stack t = current_input :: below →
  at_end current_input = false →
  _state_info t !! _current_state t = Some info →
  compiled_ (re_set info) = true →
  aligned t info →
  (∀ i, match_at t info (stream current_input) i = None) →
  ∀ fuel,
    next_token value_init (S fuel) t = Some (Done (None, t)) ∧
    next_token value_init (S fuel) t
    ≠ Some (Done (Some (end_of_input_match value_init t), t)).
Proof.
  intros Hst Hend Hinfo Hc Ha Hnone fuel.
  assert (next_token value_init (S fuel) t = Some (Done (None, t))) as ->;
    [|done].
  simpl. unfold next_token_round. rewrite Hst, Hend, Hinfo. simpl.
  destruct (Set_Match (re_set info) (stream current_input))
    as [|j l] eqn:Hl; [done|].
  assert (Hj : j ∈ Set_Match (re_set info) (stream current_input))
    by (rewrite Hl; left).
  apply (Set_Match_spec t info _ j Hc Ha) in Hj as [n Hn].
  by rewrite Hnone in Hn.
Qed.

(** Skip tokens on a stream whose size fits [int].  When the winner of a
    round has no symbol, the round returns nothing: it advances the cursor
    of the active stream past the whole match and the loop goes round
    again, on the tokenizer as it is then.  The call does not return after
    that round; it continues as a call on that tokenizer would, and
    returns what the next round returns when that round returns. *)
Theorem skip_token_is_consumed_silently (t : Tokenizer) current_input
    below info p token n :
  scanning t current_input below info →
  (∃ i, is_Some (match_at t info (stream current_input) i)) →
  select_best t info (stream current_input)
    (Set_Match (re_set info) (stream current_input))
  = Done (p, Z.of_nat n) →
  _tokens t !! p = Some token →
  get_symbol token = None →
  transition_registered t token →
  ∃ t1 current_input',
    next_token_round value_init t = Done (Continue t1) ∧
    (∀ r t', next_token_round value_init t ≠ Done (Return r t')) ∧
    _input_stack t1 = current_input' :: below ∧
    stream current_input' = remove_prefix n (stream current_input) ∧
    String.length (stream current_input')
    = String.length (stream current_input) - n ∧
    _state_info t1 = _state_info t ∧
    _current_state t1
    = default (_current_state t) (get_transition_to_state token) ∧
    (∀ fuel, next_token value_init (S fuel) t
             = next_token value_init fuel t1) ∧
    next_token value_init 1 t = None ∧
    (∀ r t', next_token_round value_init t1 = Done (Return r t') →
       ∀ fuel, next_token value_init (S (S fuel)) t = Some (Done (r, t'))).
Proof.
  intros Hsc Hex Hw Htoken Hsym Hreg.
  destruct (select_best_winner t _ _ _ _ _ Hsc Hex Hw)
    as (l1 & i & l2 & token' & n' & Hz & _ & _ & Htoken' & _ & Hn & _).
  apply Nat2Z.inj in Hz as <-.
  destruct (round_of_winner t _ _ _ _ _ _ Hsc Hex Hw Htoken Hn)
    as [_ Hok].
  specialize (Hok Hreg). simpl in Hok. rewrite Hsym in Hok.
  eexists _, _. split; [exact Hok|].
  split; [intros r t'; by rewrite Hok|].
  do 2 (split; [reflexivity|]). simpl.
  split; [by apply remove_prefix_length|].
  do 2 (split; [reflexivity|]).
  split; [intros fuel; simpl; by rewrite Hok|].
  split; [simpl; by rewrite Hok|].
  intros r t' Hr fuel. simpl. rewrite Hok. by rewrite Hr.
Qed.

(** C7. State transitions.  The winner of a round is chosen among the
    tokens of the state that is current when the round begins.  When the
    winner names a registered state, the round leaves that state current,
    so the next match attempt is made in it: after a skip token the call
    continues in the new state, and a returned match hands back a
    tokenizer in the new state. *)
Theorem transition_takes_effect_after_match (t : Tokenizer) current_input
    below info p token n state :
  scanning t current_input below info →
  (∃ i, is_Some (match_at t info (stream current_input) i)) →
  select_best t info (stream current_input)
    (Set_Match (re_set info) (stream current_input))
  = Done (p, Z.of_nat n) →
  _tokens t !! p = Some token →
  get_transition_to_state token = Some state →
  is_Some (_state_info t !! state) →
  (∃ i, tokens info !! i = Some p ∧
        match_at t info (stream current_input) i = Some n) ∧
  ∃ out,
    next_token_round value_init t = Done out ∧
    _current_state (round_tokenizer out) = state ∧
    _state_info (round_tokenizer out) = _state_info t ∧
    match get_symbol token with
    | None =>
        ∀ fuel, next_token value_init (S fuel) t
                = next_token value_init fuel (round_tokenizer out)
    | Some sym =>
        ∃ v, ∀ fuel,
          next_token value_init (S fuel) t
          = Some (Done (Some {| symbol := sym; value := v;
                                match_length := n |},
                        round_tokenizer out))
    end.
Proof.
  intros Hsc Hex Hw Htoken Htr Hstate.
  destruct (select_best_winner t _ _ _ _ _ Hsc Hex Hw)
    as (l1 & i & l2 & token' & n' & Hz & _ & Hp & _ & Hm & Hn & _).
  apply Nat2Z.inj in Hz as <-.
  split; [eauto|].
  destruct (round_of_winner t _ _ _ _ _ _ Hsc Hex Hw Htoken Hn)
    as [_ Hok].
  assert (Hreg : transition_registered t token).
  { intros s Hs. rewrite Htr in Hs. by injection Hs as <-. }
  specialize (Hok Hreg). simpl in Hok. rewrite Htr in Hok. simpl in Hok.
  eexists. split; [exact Hok|].
  destruct (get_symbol token) as [sym|]; simpl; repeat split.
  - eexists. intros fuel. by rewrite Hok.
  - intros fuel. by rewrite Hok.
Qed.

(** Registration only adds to the registry. *)
Lemma add_token_states_lookup pattern tok states
    (m m' : gmap string StateInfo) k :
  add_token_states pattern tok states m = Done m' →
  is_Some (m !! k) → is_Some (m' !! k).
Proof.
  revert m. induction states as [|state rest IH]; intros m; simpl.
  { by intros [= <-]. }
  unfold get_or_make_state_info.
  destruct (m !! state) as [info|] eqn:Hm.
  - destruct (Set_Add pattern (re_set info)) as [set' [|]]; [done|].
    intros Hadd Hk. apply (IH _ Hadd).
    destruct (decide (state = k)) as [->|Hne].
    + rewrite lookup_insert_eq. eauto.
    + by rewrite lookup_insert_ne.
  - simpl. destruct (Set_Add pattern Set_new) as [set' [|]]; [done|].
    intros Hadd Hk. apply (IH _ Hadd).
    destruct (decide (state = k)) as [->|Hne].
    + rewrite lookup_insert_eq. eauto.
    + by rewrite !lookup_insert_ne.
Qed.

Lemma add_token_registered pattern symbol states (t : Tokenizer) p t' :
  add_token pattern symbol states t = Done (p, t') →
  current_state_registered t → current_state_registered t'.
Proof.
  unfold add_token, current_state_registered.
  destruct (add_token_states pattern (length (_tokens t)) states
              (_state_info t)) as [m| |] eqn:Hadd; simpl; [|done..].
  intros [= <- <-]. simpl. by apply (add_token_states_lookup _ _ _ _ _ _ Hadd).
Qed.

(** The constructor leaves [_current_state] at [@default], which it has
    just put into the registry. *)
Lemma Tokenizer_new_registered grammar (t : Tokenizer) :
  Tokenizer_new grammar = Done t → current_state_registered t.
Proof.
  unfold Tokenizer_new.
  destruct (add_token _ _ _ _) as [[p t']| |] eqn:Hadd; simpl; [|done..].
  intros [= <-]. apply (add_token_registered _ _ _ _ _ _ Hadd).
  unfold current_state_registered, get_or_make_state_info. simpl.
  rewrite lookup_empty. simpl. rewrite lookup_insert_eq. eauto.
Qed.

Lemma next_token_registered fuel (t : Tokenizer) r t' :
  next_token value_init fuel t = Some (Done (r, t')) →
  current_state_registered t → current_state_registered t'.
Proof.
  intros Hn Hreg. apply next_token_skipped in Hn as (t1 & Hsk & Hr).
  induction Hsk as [t|t t1 t2 Hc _ IH].
  - apply (next_token_round_registered _ _ Hr Hreg).
  - apply IH; [done|]. apply (next_token_round_registered _ _ Hc Hreg).
Qed.

(** C8. [_current_state] refers to a state of the registry, and every
    operation keeps it so: registration, writes through token pointers,
    [prepare], pushing and popping streams, and every call of [next_token]
    that returns.  When the winner of a round names a state that is not in
    the registry, the call stops at the failed assertion of [enter_state]:
    it returns nothing and leaves no tokenizer to go on with. *)
Theorem current_state_stays_registered (t : Tokenizer) :
  current_state_registered t →
  (∀ pattern symbol states p t',
     add_token pattern symbol states t = Done (p, t') →
     current_state_registered t') ∧
  (∀ tok f, current_state_registered (with_token tok f t)) ∧
  current_state_registered (prepare t) ∧
  (∀ input, current_state_registered (push_input_stream input t)) ∧
  (∀ t', pop_input_stream t = Done t' → current_state_registered t') ∧
  (∀ fuel r t',
     next_token value_init fuel t = Some (Done (r, t')) →
     current_state_registered t') ∧
  (∀ current_input below info p n token state,
     scanning t current_input below info →
     (∃ i, is_Some (match_at t info (stream current_input) i)) →
     select_best t info (stream current_input)
       (Set_Match (re_set info) (stream current_input))
     = Done (p, Z.of_nat n) →
     _tokens t !! p = Some token →
     get_transition_to_state token = Some state →
     _state_info t !! state = None →
     ∀ fuel, next_token value_init (S fuel) t = Some AssertionFailed).
Proof.
  intros Hreg. repeat split.
  - intros pattern symbol states p t' Hadd.
    by apply (add_token_registered _ _ _ _ _ _ Hadd).
  - done.
  - unfold current_state_registered, prepare in *. simpl.
    rewrite lookup_fmap. destruct Hreg as [info ->]. simpl. eauto.
  - done.
  - unfold pop_input_stream. intros t'.
    destruct (_input_stack t); [done|].
    destruct (uncovers_dangling t); [done|]. by intros [= <-].
  - intros fuel r t' Hn. by apply (next_token_registered _ _ _ _ Hn).
  - intros current_input below info p n token state Hsc Hex Hw Htoken
      Htr Hstate fuel.
    destruct (select_best_winner t _ _ _ _ _ Hsc Hex Hw)
      as (l1 & i & l2 & token' & n' & Hz & _ & _ & _ & _ & Hn & _).
    apply Nat2Z.inj in Hz as <-.
    destruct (round_of_winner t _ _ _ _ _ _ Hsc Hex Hw Htoken Hn)
      as [Hfail _].
    simpl. by rewrite (Hfail state Htr Hstate).
Qed.

Lemma Set_Compile_idempotent (s : Set_) :
  Set_Compile (Set_Compile s) = Set_Compile s.
Proof. unfold Set_Compile. by destruct s as [ps [|]]. Qed.

(** C9, on [RE2::Set::Compile] as modelled from the specification.
    [prepare] is idempotent: a second call changes nothing, so every call
    of [next_token], on every input pushed afterwards, gives after two
    calls of [prepare] what it gives after one. *)
Theorem prepare_idempotent (t : Tokenizer) :
  prepare (prepare t) = prepare t ∧
  ∀ input fuel,
    next_token value_init fuel (push_input_stream input (prepare (prepare t)))
    = next_token value_init fuel (push_input_stream input (prepare t)).
Proof.
  assert (Hp : prepare (prepare t) = prepare t).
  { unfold prepare. simpl. f_equal.
    rewrite <- map_fmap_compose. apply map_fmap_ext.
    intros k info _. simpl. by rewrite Set_Compile_idempotent. }
  split; [done|]. intros input fuel. by rewrite Hp.
Qed.

(** C10, as the code has it.  The round that signals "no token" changes
    nothing: the tokenizer a call hands back with "no token" is the one
    that round began with.  It is reached from the tokenizer at the start
    of the call by the rounds that consumed skip tokens, and it is the
    tokenizer at the start of the call when the first round consumes no
    skip token. *)
Theorem no_token_round_changes_nothing fuel (t t' : Tokenizer) :
  next_token value_init fuel t = Some (Done (None, t')) →
  skipped value_init t t' ∧
  next_token_round value_init t' = Done (Return None t') ∧
  ((∀ t1, next_token_round value_init t ≠ Done (Continue t1)) → t' = t).
Proof.
  intros Hn. apply next_token_skipped in Hn as (t1 & Hsk & Hr).
  assert (t' = t1) as -> by by apply next_token_round_no_token.
  repeat split; try done.
  intros Hfirst. destruct Hsk as [|t t2 t1 Hc _]; [done|].
  by destruct (Hfirst t2).
Qed.




(** *** Tokenizers built by registration are aligned *)

Lemma aligned_tokens_app (toks : list (Token Symbol ValueT)) token info :
  (λ p, get_pattern <$> toks !! p) <$> tokens info
  = Some <$> elem_ (re_set info) →
  (λ p, get_pattern <$> (toks ++ [token]) !! p) <$> tokens info
  = Some <$> elem_ (re_set info).
Proof.
  intros Ha. rewrite <- Ha. apply list_eq. intros i.
  rewrite !list_lookup_fmap.
  assert (Hi := f_equal (λ l, l !! i) Ha). simpl in Hi.
  rewrite !list_lookup_fmap in Hi.
  destruct (tokens info !! i) as [p|]; simpl in *; [|done].
  destruct (toks !! p) as [tk|] eqn:Hp.
  - by rewrite (lookup_app_l_Some _ _ _ _ Hp).
  - by destruct (elem_ (re_set info) !! i).
Qed.

Lemma add_token_states_aligned (toks : list (Token Symbol ValueT)) token
    tok states (m m' : gmap string StateInfo) :
  toks !! tok = Some token →
  (∀ k info, m !! k = Some info →
     (λ p, get_pattern <$> toks !! p) <$> tokens info
     = Some <$> elem_ (re_set info) ∧
     compiled_ (re_set info) = false) →
  add_token_states (get_pattern token) tok states m = Done m' →
  ∀ k info, m' !! k = Some info →
    (λ p, get_pattern <$> toks !! p) <$> tokens info
    = Some <$> elem_ (re_set info) ∧
    compiled_ (re_set info) = false.
Proof.
  intros Htok. revert m. induction states as [|state rest IH];
    intros m Hm; simpl.
  { by intros [= <-]. }
  assert (∃ m1 state_info,
    get_or_make_state_info state m = (m1, state_info) ∧
    ((λ p, get_pattern <$> toks !! p) <$> tokens state_info
     = Some <$> elem_ (re_set state_info) ∧
     compiled_ (re_set state_info) = false) ∧
    ∀ k info, m1 !! k = Some info →
      (λ p, get_pattern <$> toks !! p) <$> tokens info
      = Some <$> elem_ (re_set info) ∧
      compiled_ (re_set info) = false) as (m1 & state_info & -> & Hsi & Hm1).
  { unfold get_or_make_state_info.
    destruct (m !! state) as [info|] eqn:Hs.
    - exists m, info. eauto.
    - eexists _, _. split; [done|]. split; [done|].
      intros k info. destruct (decide (state = k)) as [->|Hne].
      + rewrite lookup_insert_eq. by intros [= <-].
      + rewrite lookup_insert_ne by done. apply Hm. }
  destruct Hsi as [Ha Hc]. unfold Set_Add. rewrite Hc.
  destruct (re_ok (get_pattern token)); [|done].
  apply IH. intros k info. destruct (decide (state = k)) as [->|Hne].
  - rewrite lookup_insert_eq. intros [= <-]. simpl. split; [|done].
    rewrite !fmap_app, Ha. simpl. by rewrite Htok.
  - rewrite lookup_insert_ne by done. apply Hm1.
Qed.

Lemma add_token_aligned pattern symbol states (t : Tokenizer) p t' :
  add_token pattern symbol states t = Done (p, t') →
  registry_aligned false t → registry_aligned false t'.
Proof.
  unfold add_token, registry_aligned, aligned.
  set (token := {| get_index := length (_tokens t); get_pattern := pattern;
                   get_symbol := symbol; get_action := None;
                   get_transition_to_state := None |}).
  destruct (add_token_states pattern (length (_tokens t)) states
              (_state_info t)) as [m| |] eqn:Hadd; simpl; [|done..].
  intros [= <- <-] Ht. simpl.
  apply (add_token_states_aligned (_tokens t ++ [token]) token
           (length (_tokens t)) states (_state_info t) m).
  - by rewrite lookup_app_r, Nat.sub_diag.
  - intros k info Hk. destruct (Ht k info Hk) as [Ha Hc].
    split; [by apply aligned_tokens_app | done].
  - done.
Qed.

(** A write through a token pointer that keeps the pattern, as the
    setters of [Token] do, keeps the registry aligned. *)
Lemma with_token_aligned compiled tok f (t : Tokenizer) :
  (∀ token, get_pattern (f token) = get_pattern token) →
  registry_aligned compiled t →
  registry_aligned compiled (with_token tok f t).
Proof.
  unfold registry_aligned, aligned. simpl. intros Hf Ht k info Hk.
  destruct (Ht k info Hk) as [Ha Hc]. split; [|done].
  rewrite <- Ha. apply list_fmap_ext. intros i p _.
  destruct (decide (tok = p)) as [->|Hne].
  - rewrite list_lookup_alter_eq. destruct (_tokens t !! p); simpl; [|done].
    by rewrite Hf.
  - by rewrite list_lookup_alter_ne.
Qed.

Lemma Tokenizer_new_aligned grammar (t : Tokenizer) :
  Tokenizer_new grammar = Done t → registry_aligned false t.
Proof.
  unfold Tokenizer_new.
  destruct (add_token _ _ _ _) as [[p t']| |] eqn:Hadd; simpl; [|done..].
  intros [= <-]. apply (add_token_aligned _ _ _ _ _ _ Hadd).
  unfold registry_aligned, aligned, get_or_make_state_info. simpl.
  rewrite lookup_empty. simpl. intros k info.
  destruct (decide (DefaultState = k)) as [<-|Hne].
  - rewrite lookup_insert_eq. by intros [= <-].
  - by rewrite lookup_insert_ne.
Qed.

Lemma prepare_aligned compiled (t : Tokenizer) :
  registry_aligned compiled t → registry_aligned true (prepare t).
Proof.
  unfold registry_aligned, aligned, prepare. simpl. intros Ht k info.
  rewrite lookup_fmap. destruct (_state_info t !! k) as [info0|] eqn:Hk;
    simpl; [|done].
  intros [= <-]. simpl. destruct (Ht k info0 Hk) as [Ha Hc].
  unfold Set_Compile. by destruct (compiled_ (re_set info0)) eqn:Hc'.
Qed.

Lemma next_token_aligned compiled fuel (t : Tokenizer) r t' :
  next_token value_init fuel t = Some (Done (r, t')) →
  registry_aligned compiled t → registry_aligned compiled t'.
Proof.
  intros Hn. apply next_token_skipped in Hn as (t1 & Hsk & Hr).
  assert (Hround : ∀ (t : Tokenizer) out,
    next_token_round value_init t = Done out →
    registry_aligned compiled t →
    registry_aligned compiled (round_tokenizer out)).
  { clear. intros t out Hr Ht. apply next_token_round_inv in Hr
      as [[_ ->] | [(? & ? & _ & _ & ->) | [(? & ? & ? & _ & _ & _ & _ & ->)
        | (? & ? & ? & ? & ? & ? & ? & _ & _ & _ & _ & _ & _ & -> & _)]]];
      done. }
  induction Hsk as [t|t t1 t2 Hc _ IH]; intros Ht.
  - apply (Hround _ _ Hr Ht).
  - apply IH; [done|]. apply (Hround _ _ Hc Ht).
Qed.

(** On a tokenizer whose registry is aligned and compiled, with
    [_current_state] in the registry, every round on a stream that is not
    at its end and fits [int] is in the setting [scanning]. *)
Lemma prepared_scanning (t : Tokenizer) current_input below :
  registry_aligned true t → current_state_registered t →
  _input_stack t = current_input :: below →
  at_end current_input = false →
  (Z.of_nat (String.length (stream current_input)) ≤ INT_MAX)%Z →
  ∃ info, scanning t current_input below info.
Proof.
  intros Ht [info Hinfo] Hst Hend Hsize. exists info.
  destruct (Ht _ info Hinfo) as [Ha Hc]. by split.
Qed.

End scanning.

(** ** Properties of the interface as a whole *)

Lemma remove_prefix_remove_prefix (a b : nat) (s : string) :
  remove_prefix a (remove_prefix b s) = remove_prefix (b + a) s.
Proof.
  revert s. induction b as [|b IH]; intros s; simpl.
  { by destruct s. }
  destruct s as [|c s]; simpl; [by destruct a|]. apply IH.
Qed.

Lemma remove_prefix_all (n : nat) (s : string) :
  String.length s ≤ n → remove_prefix n s = EmptyString.
Proof.
  revert s. induction n as [|n IH]; intros [|c s]; simpl; try done; try lia.
  intros Hn. apply IH. lia.
Qed.

Section rounds.
Context {Symbol ValueT : Type} `{E : Engine} `{M : Storage}.
Variable value_init : ValueT.

Abbreviation Tokenizer := (Tokenizer Symbol ValueT).

(** Whatever the vector of indices, the loop leaves [best_match] as it
    found it or points it at a token of the state, at an index of the
    vector, and [longest_match] does not decrease. *)
Lemma examine_all_best (t : Tokenizer) info text (l : list nat) b b' :
  examine_all t info text l b = Done b' →
  (longest_match b ≤ longest_match b')%Z ∧
  (best_match b' = best_match b ∨
   ∃ i p, i ∈ l ∧ tokens info !! i = Some p ∧ best_match b' = Some p ∧
          (longest_match b < longest_match b')%Z).
Proof.
  revert b. induction l as [|i l IH]; intros b; simpl.
  { intros [= <-]. split; [lia | by left]. }
  unfold examine.
  destruct (tokens info !! i) as [p|] eqn:Hp; simpl; [|done].
  destruct (_tokens t !! p) as [token|]; simpl; [|done].
  set (sub := match re_match (get_pattern token) text with
              | Some n => n | None => submatch b end).
  destruct (Z.ltb_spec (longest_match b) (static_cast_int sub)) as [Hlt|Hge];
    simpl; intros Hrest; apply IH in Hrest as [Hle Hcases]; simpl in *.
  - split; [lia|]. right.
    destruct Hcases as [Hsame | (j & q & Hj & Hq & Hbest & Hlt')].
    + exists i, p. repeat split; try done; [by left | lia].
    + exists j, q. repeat split; try done; [by right | lia].
  - split; [lia|].
    destruct Hcases as [Hsame | (j & q & Hj & Hq & Hbest & Hlt')].
    + by left.
    + right. exists j, q. repeat split; try done. by right.
Qed.

(** The winner of the loop is a token of the state, at an index the set
    reported, and [longest_match] is not negative. *)
Lemma select_best_inv (t : Tokenizer) info text (l : list nat) p z :
  select_best t info text l = Done (p, z) →
  ∃ i, i ∈ l ∧ tokens info !! i = Some p ∧ (0 ≤ z)%Z.
Proof.
  unfold select_best.
  destruct (examine_all t info text l Best_init) as [b'| |] eqn:Hb;
    simpl; [|done..].
  destruct (best_match b') as [q|] eqn:Hq; simpl; [|done].
  intros [= <- <-].
  apply examine_all_best in Hb as [_ [Hsame | (i & p & Hi & Hp & Hbest & Hlt)]].
  - rewrite Hq in Hsame. done.
  - rewrite Hq in Hbest. injection Hbest as <-. exists i.
    simpl in Hlt. repeat split; try done. lia.
Qed.

(** A round that completes on a stream that is not at its end, other than
    by finding no match, consumed the winner of the loop. *)
Lemma next_token_round_consumed (t : Tokenizer) out current_input below :
  next_token_round value_init t = Done out →
  _input_stack t = current_input :: below →
  at_end current_input = false →
  out = Return None t ∨
  ∃ info i p n token state,
    _state_info t !! _current_state t = Some info ∧
    i ∈ Set_Match (re_set info) (stream current_input) ∧
    tokens info !! i = Some p ∧
    select_best t info (stream current_input)
      (Set_Match (re_set info) (stream current_input))
    = Done (p, Z.of_nat n) ∧
    _tokens t !! p = Some token ∧
    n ≤ String.length (stream current_input) ∧
    (get_transition_to_state token = Some state ∧
     is_Some (_state_info t !! state)
     ∨ get_transition_to_state token = None ∧ state = _current_state t) ∧
    out = match get_symbol token with
          | None => Continue (consumed t current_input below n state)
          | Some sym =>
              Return
                (Some {| symbol := sym;
                         value :=
                           value_of value_init token
                             (stream current_input) n;
                         match_length := n |})
                (consumed t current_input below n state)
          end.
Proof.
  unfold next_token_round. intros Hr Hst Hend. rewrite Hst, Hend in Hr.
  destruct (_state_info t !! _current_state t) as [info|] eqn:Hinfo;
    simpl in Hr; [|done].
  destruct (Set_Match (re_set info) (stream current_input))
    as [|j l] eqn:Hl.
  { left. by simplify_eq. }
  right. rewrite <- Hl in Hr.
  destruct (select_best t info (stream current_input)
              (Set_Match (re_set info) (stream current_input)))
    as [[p z]| |] eqn:Hw; simpl in Hr; [|done..].
  destruct (select_best_inv _ _ _ _ _ _ Hw) as (i & Hi & Hp & Hz).
  unfold consume in Hr.
  destruct (_tokens t !! p) as [token|] eqn:Htoken; simpl in Hr; [|done].
  assert (∃ state,
    (get_transition_to_state token = Some state ∧
     is_Some (_state_info t !! state)
     ∨ get_transition_to_state token = None ∧ state = _current_state t) ∧
    match get_transition_to_state token with
    | Some state => enter_state state t
    | None => Done t
    end = Done {| _grammar := _grammar t; _tokens := _tokens t;
                  _state_info := _state_info t;
                  _input_stack := _input_stack t;
                  _current_state := state;
                  _input_stack_capacity := _input_stack_capacity t;
                  _input_stack_dangling := _input_stack_dangling t |})
    as (state & Hstate & Henter).
  { destruct (get_transition_to_state token) as [state|].
    - unfold enter_state, get_state_info in *.
      destruct (_state_info t !! state) eqn:Hs; simpl in Hr; [|done].
      exists state. split; [left; eauto | done].
    - exists (_current_state t). split; [by right | by destruct t]. }
  rewrite Henter in Hr. simpl in Hr.
  destruct (Nat.ltb_spec (String.length (stream current_input))
              (Z.to_nat z)) as [Hlt|Hge]; [done|].
  exists info, i, p, (Z.to_nat z), token, state.
  rewrite Z2Nat.id by done. repeat split; try done.
  unfold value_of. destruct (get_symbol token); by simplify_eq.
Qed.

End rounds.

Section calls.
Context {Symbol ValueT : Type} `{E : Engine} `{M : Storage}.
Variable value_init : ValueT.

Abbreviation Tokenizer := (Tokenizer Symbol ValueT).

(** What a completed round leaves as it was, and how far it moved the
    cursor of the active stream. *)
Lemma next_token_round_advance (t : Tokenizer) out current_input below :
  next_token_round value_init t = Done out →
  _input_stack t = current_input :: below →
  _grammar (round_tokenizer out) = _grammar t ∧
  _tokens (round_tokenizer out) = _tokens t ∧
  _state_info (round_tokenizer out) = _state_info t ∧
  ∃ current_input' k,
    _input_stack (round_tokenizer out) = current_input' :: below ∧
    content current_input' = content current_input ∧
    k ≤ String.length (stream current_input) ∧
    stream current_input' = remove_prefix k (stream current_input) ∧
    (at_end current_input = true → at_end current_input' = true).
Proof.
  intros Hr Hst. destruct (at_end current_input) eqn:Hend.
  - unfold next_token_round in Hr. rewrite Hst, Hend in Hr.
    injection Hr as <-. simpl. repeat split.
    exists current_input, 0. repeat split; try done. lia.
  - destruct (next_token_round_consumed _ _ _ _ _ Hr Hst Hend)
      as [-> | (info & i & p & n & token & state & _ & _ & _ & _ & _
                 & Hn & _ & ->)].
    + simpl. repeat split. exists current_input, 0.
      repeat split; try done. lia.
    + destruct (get_symbol token); simpl; repeat split;
        eexists _, n; simpl; repeat split; done.
Qed.

(** The same for the rounds of a call that consumed skip tokens. *)
Lemma skipped_advance (t t1 : Tokenizer) current_input below :
  skipped value_init t t1 →
  _input_stack t = current_input :: below →
  _grammar t1 = _grammar t ∧
  _tokens t1 = _tokens t ∧
  _state_info t1 = _state_info t ∧
  ∃ current_input1 k,
    _input_stack t1 = current_input1 :: below ∧
    content current_input1 = content current_input ∧
    k ≤ String.length (stream current_input) ∧
    stream current_input1 = remove_prefix k (stream current_input) ∧
    (at_end current_input = true → at_end current_input1 = true).
Proof.
  intros Hsk. revert current_input.
  induction Hsk as [t|t t1 t2 Hc _ IH]; intros current_input Hst.
  { repeat split. exists current_input, 0. repeat split; try done. lia. }
  destruct (next_token_round_advance _ _ _ _ Hc Hst)
    as (Hg & Ht & Hs & ci1 & k1 & Hst1 & Hc1 & Hk1 & Hs1 & He1).
  simpl in *.
  destruct (IH ci1 Hst1)
    as (Hg2 & Ht2 & Hs2 & ci2 & k2 & Hst2 & Hc2 & Hk2 & Hs2' & He2).
  repeat split; try congruence.
  exists ci2, (k1 + k2). rewrite Hs1 in Hk2, Hs2'.
  rewrite remove_prefix_length in Hk2 by done.
  rewrite remove_prefix_remove_prefix in Hs2'.
  repeat split; try done; [congruence | lia | auto].
Qed.

(** A completed call: the rounds on skip tokens, then the round that
    returns. *)
Lemma next_token_advance fuel (t : Tokenizer) r t' current_input below :
  next_token value_init fuel t = Some (Done (r, t')) →
  _input_stack t = current_input :: below →
  _grammar t' = _grammar t ∧
  _tokens t' = _tokens t ∧
  _state_info t' = _state_info t ∧
  ∃ current_input' k,
    _input_stack t' = current_input' :: below ∧
    content current_input' = content current_input ∧
    k ≤ String.length (stream current_input) ∧
    stream current_input' = remove_prefix k (stream current_input) ∧
    (at_end current_input = true → at_end current_input' = true).
Proof.
  intros Hn Hst. apply next_token_skipped in Hn as (t1 & Hsk & Hr).
  destruct (skipped_advance _ _ _ _ Hsk Hst)
    as (Hg1 & Ht1 & Hs1 & ci1 & k1 & Hst1 & Hc1 & Hk1 & Hs1' & He1).
  destruct (next_token_round_advance _ _ _ _ Hr Hst1)
    as (Hg2 & Ht2 & Hs2 & ci2 & k2 & Hst2 & Hc2 & Hk2 & Hs2' & He2).
  simpl in *. repeat split; try congruence.
  exists ci2, (k1 + k2). rewrite Hs1' in Hk2, Hs2'.
  rewrite remove_prefix_length in Hk2 by done.
  rewrite remove_prefix_remove_prefix in Hs2'.
  repeat split; try done; [congruence | lia | auto].
Qed.

Lemma next_token_empty_stack fuel (t : Tokenizer) r t' :
  next_token value_init fuel t = Some (Done (r, t')) →
  _input_stack t = [] → r = None ∧ t' = t.
Proof.
  destruct fuel as [|fuel]; simpl; [done|]. unfold next_token_round.
  intros Hn Hst. rewrite Hst in Hn. by simplify_eq.
Qed.

(** X1. A call of [next_token] that returns leaves the grammar, the
    tokens, the registry of states and the streams beneath the active one
    as they were, and the text of the active stream too; on an empty
    stack it returns "no token" and changes nothing at all. *)
Theorem next_token_changes_only_the_active_stream fuel (t : Tokenizer)
    r t' :
  next_token value_init fuel t = Some (Done (r, t')) →
  _grammar t' = _grammar t ∧
  _tokens t' = _tokens t ∧
  _state_info t' = _state_info t ∧
  match _input_stack t with
  | [] => r = None ∧ t' = t
  | current_input :: below =>
      ∃ current_input',
        _input_stack t' = current_input' :: below ∧
        content current_input' = content current_input
  end.
Proof.
  intros Hn. destruct (_input_stack t) as [|current_input below] eqn:Hst.
  - destruct (next_token_empty_stack _ _ _ _ Hn Hst) as [-> ->]. done.
  - destruct (next_token_advance _ _ _ _ _ _ Hn Hst)
      as (Hg & Ht & Hs & ci' & k & Hst' & Hc & _).
    repeat split; try done. eauto.
Qed.

(** The match a round returns is no longer than what the round
    consumed. *)
Lemma next_token_round_match_length (t : Tokenizer) m t' current_input
    below :
  next_token_round value_init t = Done (Return (Some m) t') →
  _input_stack t = current_input :: below →
  ∃ current_input',
    _input_stack t' = current_input' :: below ∧
    match_length m ≤ String.length (stream current_input) ∧
    stream current_input'
    = remove_prefix (match_length m) (stream current_input).
Proof.
  intros Hr Hst. destruct (at_end current_input) eqn:Hend.
  - unfold next_token_round in Hr. rewrite Hst, Hend in Hr.
    injection Hr as <- <-. simpl. exists current_input.
    repeat split; try done. lia.
  - destruct (next_token_round_consumed _ _ _ _ _ Hr Hst Hend)
      as [[=] | (info & i & p & n & token & state & _ & _ & _ & _ & _
                 & Hn & _ & Hout)].
    destruct (get_symbol token); [|done].
    injection Hout as -> ->. simpl. eauto.
Qed.

(** X2. The cursor of the active stream only moves forward, and never
    past the end: after a call that returns, the cursor is the cursor
    before with some [k] characters removed, [k] at most the number of
    characters that were left and at least the length of the returned
    match; a stream at its end stays at its end. *)
Theorem cursor_only_moves_forward fuel (t : Tokenizer) r t' current_input
    below :
  next_token value_init fuel t = Some (Done (r, t')) →
  _input_stack t = current_input :: below →
  ∃ current_input' k,
    _input_stack t' = current_input' :: below ∧
    k ≤ String.length (stream current_input) ∧
    stream current_input' = remove_prefix k (stream current_input) ∧
    String.length (stream current_input')
    = String.length (stream current_input) - k ∧
    match r with
    | Some m => match_length m ≤ k
    | None => True
    end ∧
    (at_end current_input = true → at_end current_input' = true).
Proof.
  intros Hn Hst. apply next_token_skipped in Hn as (t1 & Hsk & Hr).
  destruct (skipped_advance _ _ _ _ Hsk Hst)
    as (_ & _ & _ & ci1 & k1 & Hst1 & _ & Hk1 & Hs1 & He1).
  destruct (next_token_round_advance _ _ _ _ Hr Hst1)
    as (_ & _ & _ & ci2 & k2 & Hst2 & _ & Hk2 & Hs2 & He2).
  simpl in *. rewrite Hs1 in Hk2.
  rewrite remove_prefix_length in Hk2 by done.
  destruct r as [m|].
  - destruct (next_token_round_match_length _ _ _ _ _ Hr Hst1)
      as (ci2' & Hst2' & Hm & Hs2').
    rewrite Hst2 in Hst2'. injection Hst2' as <-.
    rewrite Hs1 in Hm, Hs2'. rewrite remove_prefix_length in Hm by done.
    rewrite remove_prefix_remove_prefix in Hs2'.
    exists ci2, (k1 + match_length m). repeat split; try done;
      [lia | rewrite Hs2'; apply remove_prefix_length; lia | lia | auto].
  - rewrite Hs1, remove_prefix_remove_prefix in Hs2.
    exists ci2, (k1 + k2). repeat split; try done;
      [lia | rewrite Hs2; apply remove_prefix_length; lia | auto].
Qed.

(** X3. A match that [next_token] returns is the end-of-input fallback,
    or it carries the symbol of a token registered in a state of the
    registry, its length is inside what was left of the stream, and its
    value is the token's action applied to exactly the matched characters
    (the value-initialised value when the token has no action). *)
Theorem returned_match_is_a_registered_token fuel (t : Tokenizer) m t'
    current_input below :
  next_token value_init fuel t = Some (Done (Some m, t')) →
  _input_stack t = current_input :: below →
  m = end_of_input_match value_init t ∨
  ∃ k state info i p token,
    _state_info t !! state = Some info ∧
    tokens info !! i = Some p ∧
    _tokens t !! p = Some token ∧
    get_symbol token = Some (symbol m) ∧
    k + match_length m ≤ String.length (stream current_input) ∧
    value m
    = match get_action token with
      | Some f =>
          f (string_view (remove_prefix k (stream current_input))
               (match_length m))
      | None => value_init
      end.
Proof.
  intros Hn Hst. apply next_token_skipped in Hn as (t1 & Hsk & Hr).
  destruct (skipped_advance _ _ _ _ Hsk Hst)
    as (Hg1 & Ht1 & Hs1 & ci1 & k1 & Hst1 & _ & Hk1 & Hs1' & _).
  destruct (at_end ci1) eqn:Hend.
  - left. unfold next_token_round in Hr. rewrite Hst1, Hend in Hr.
    injection Hr as <- <-. unfold end_of_input_match. by rewrite Hg1.
  - right. destruct (next_token_round_consumed _ _ _ _ _ Hr Hst1 Hend)
      as [[=] | (info & i & p & n & token & state & Hinfo & _ & Hp & _
                 & Htoken & Hn & _ & Hout)].
    destruct (get_symbol token) as [sym|] eqn:Hsym; [|done].
    injection Hout as -> _. simpl.
    rewrite Hs1' in Hn. rewrite remove_prefix_length in Hn by done.
    exists k1, (_current_state t1), info, i, p, token.
    rewrite <- Hs1, <- Ht1, <- Hs1'. repeat split; try done. lia.
Qed.

(** The calls made on a tokenizer leave all but the active stream and
    the current state as they were. *)
Lemma scanned_frame (t t' : Tokenizer) current_input below :
  scanned value_init t t' →
  _input_stack t = current_input :: below →
  _grammar t' = _grammar t ∧
  _tokens t' = _tokens t ∧
  _state_info t' = _state_info t ∧
  ∃ current_input', _input_stack t' = current_input' :: below.
Proof.
  intros Hsc. revert current_input.
  induction Hsc as [t|t fuel r t1 t' Hn _ IH]; intros current_input Hst.
  { eauto. }
  destruct (next_token_advance _ _ _ _ _ _ Hn Hst)
    as (Hg & Ht & Hs & ci1 & k & Hst1 & _).
  destruct (IH ci1 Hst1) as (Hg' & Ht' & Hs' & ci' & Hst').
  repeat split; try congruence. eauto.
Qed.

(** X5. On a stream that is empty but not yet at its end, a call that
    returns either returns "no token" and changes nothing, or returns a
    match of length 0 and leaves the stream at its end: the empty rest of
    a stream is matched at most once. *)
Theorem empty_stream_is_matched_once fuel (t : Tokenizer) r t'
    current_input below :
  _input_stack t = current_input :: below →
  at_end current_input = false →
  String.length (stream current_input) = 0 →
  next_token value_init fuel t = Some (Done (r, t')) →
  (r = None ∧ t' = t) ∨
  ∃ m current_input',
    r = Some m ∧ match_length m = 0 ∧
    _input_stack t' = current_input' :: below ∧
    at_end current_input' = true ∧
    String.length (stream current_input') = 0.
Proof.
  intros Hst Hend Hlen Hn.
  destruct fuel as [|fuel]; simpl in Hn; [done|].
  destruct (next_token_round value_init t) as [out| |] eqn:Hr; try done.
  destruct (next_token_round_consumed _ _ _ _ _ Hr Hst Hend)
    as [-> | (info & i & p & n & token & state & _ & _ & _ & _ & _
               & Hle & _ & ->)].
  { left. by simplify_eq. }
  right. assert (n = 0) as -> by lia.
  destruct (get_symbol token) as [sym|].
  - injection Hn as <- <-. eexists _, _. simpl.
    do 3 (split; [reflexivity|]). simpl. by rewrite Hlen.
  - destruct fuel as [|fuel]; simpl in Hn; [done|].
    unfold next_token_round in Hn. simpl in Hn. rewrite Hlen in Hn.
    simpl in Hn. injection Hn as <- <-.
    eexists _, _. simpl.
    do 3 (split; [reflexivity|]). simpl. by rewrite Hlen.
Qed.

(** A round that goes round again on the tokenizer it began with does so
    for ever: the loop is not left, whatever the bound. *)
Lemma next_token_round_fixpoint (t : Tokenizer) :
  next_token_round value_init t = Done (Continue t) →
  ∀ fuel, next_token value_init fuel t = None.
Proof.
  intros Hr fuel. induction fuel as [|fuel IH]; simpl; [done|].
  by rewrite Hr.
Qed.

End calls.

Section nesting.
Context {Symbol ValueT : Type} `{E : Engine} `{M : Storage}.
Variable value_init : ValueT.

Abbreviation Tokenizer := (Tokenizer Symbol ValueT).

(** A round moves no entry of the input stack: the capacity and the state
    of the views are as they were. *)
Lemma next_token_round_storage (t : Tokenizer) out :
  next_token_round value_init t = Done out →
  _input_stack_capacity (round_tokenizer out) = _input_stack_capacity t ∧
  _input_stack_dangling (round_tokenizer out) = _input_stack_dangling t.
Proof.
  intros Hr. apply next_token_round_inv in Hr
    as [[_ ->] | [(? & ? & _ & _ & ->) | [(? & ? & ? & _ & _ & _ & _ & ->)
      | (? & ? & ? & ? & ? & ? & ? & _ & _ & _ & _ & _ & _ & -> & _)]]];
    done.
Qed.

Lemma next_token_storage fuel (t : Tokenizer) r t' :
  next_token value_init fuel t = Some (Done (r, t')) →
  _input_stack_capacity t' = _input_stack_capacity t ∧
  _input_stack_dangling t' = _input_stack_dangling t.
Proof.
  intros Hn. apply next_token_skipped in Hn as (t1 & Hsk & Hr).
  induction Hsk as [t|t t1 t2 Hc _ IH].
  - apply (next_token_round_storage _ _ Hr).
  - destruct (next_token_round_storage _ _ Hc) as [Hcap Hd].
    destruct (IH Hr) as [Hcap' Hd']. simpl in *. split; congruence.
Qed.

Lemma scanned_storage (t t' : Tokenizer) :
  scanned value_init t t' →
  _input_stack_capacity t' = _input_stack_capacity t ∧
  _input_stack_dangling t' = _input_stack_dangling t.
Proof.
  induction 1 as [t|t fuel r t1 t' Hn _ IH]; [done|].
  destruct (next_token_storage _ _ _ _ Hn) as [Hcap Hd].
  destruct IH as [Hcap' Hd']. split; congruence.
Qed.

(** The calls made on the active stream do not change what a pop would
    uncover. *)
Lemma scanned_uncovers (t t' : Tokenizer) current_input below :
  scanned value_init t t' →
  _input_stack t = current_input :: below →
  uncovers_dangling t' = uncovers_dangling t.
Proof.
  intros Hsc Hst.
  destruct (scanned_frame _ _ _ _ _ Hsc Hst) as (_ & _ & _ & ci' & Hst').
  destruct (scanned_storage _ _ Hsc) as [_ Hd].
  unfold uncovers_dangling. by rewrite Hst, Hst', Hd.
Qed.




(** X4. Pushing a stream, calling [next_token] on it any number of times
    and popping it gives back the grammar, the tokens, the registry and
    the entries of the input stack as they were before the push.  It does
    not give back [_current_state]: the state the calls on the pushed
    stream left current stays current.  Nor does it undo what the push
    did to the storage of the stack: the capacity and the state of the
    views beneath are those the push left.  The pop counts as defined
    when it does not uncover a dangling view that is still to be read. *)
Theorem push_scan_pop_restores_all_but_state (t0 : Tokenizer) input
    (t : Tokenizer) :
  scanned value_init (push_input_stream input t0) t →
  uncovers_dangling (push_input_stream input t0) = false →
  ∃ t',
    pop_input_stream t = Done t' ∧
    _grammar t' = _grammar t0 ∧ _tokens t' = _tokens t0 ∧
    _state_info t' = _state_info t0 ∧
    _input_stack t' = _input_stack t0 ∧
    _current_state t' = _current_state t ∧
    _input_stack_capacity t'
    = _input_stack_capacity (push_input_stream input t0) ∧
    _input_stack_dangling t'
    = tail (_input_stack_dangling (push_input_stream input t0)).
Proof.
  intros Hsc Hvalid.
  destruct (scanned_frame _ _ _ _ _ Hsc eq_refl)
    as (Hg & Ht & Hs & ci' & Hst).
  destruct (scanned_storage _ _ Hsc) as [Hcap Hd].
  simpl in Hg, Ht, Hs, Hst. unfold pop_input_stream.
  rewrite (scanned_uncovers _ _ _ _ Hsc eq_refl), Hvalid, Hst.
  eexists. split; [reflexivity|]. simpl. by rewrite Hd.
Qed.



End nesting.

Section truncation.
Context {Symbol ValueT : Type} `{E : Engine} {L : EngineLaws E} `{M : Storage}.
Variable value_init : ValueT.

Abbreviation Tokenizer := (Tokenizer Symbol ValueT).

(** A size from 2^31 up to 2^32 - 1 is cast to a negative [int]. *)
Lemma static_cast_int_wrapped (n : nat) :
  (INT_MAX < Z.of_nat n < 2 ^ 32)%Z →
  static_cast_int n = (Z.of_nat n - 2 ^ 32)%Z.
Proof.
  unfold static_cast_int, INT_MAX. intros Hn.
  rewrite Z.mod_small by lia.
  destruct (Z.ltb_spec (Z.of_nat n) (2 ^ 31)); lia.
Qed.

(** One round of the [for] loop on an index whose token matches, whatever
    the size of the match. *)
Lemma examine_matched (t : Tokenizer) info text b i p token n :
  tokens info !! i = Some p → _tokens t !! p = Some token →
  re_match (get_pattern token) text = Some n →
  examine t info text b i
  = Done (if (longest_match b <? static_cast_int n)%Z
          then {| submatch := n; best_match := Some p;
                  longest_match := static_cast_int n |}
          else {| submatch := n; best_match := best_match b;
                  longest_match := longest_match b |}).
Proof.
  intros Hp Htoken Hn. unfold examine. rewrite Hp. simpl.
  rewrite Htoken. simpl. rewrite Hn.
  by destruct (longest_match b <? static_cast_int n)%Z.
Qed.

(** C1, where the code departs from it.  [longest_match] is an [int] and
    the size of each match is cast to [int] before it is compared.  When
    two tokens of the current state match and the longer match has 2^31
    characters or more (fewer than 2^32), its size is cast to a negative
    number and never beats the other, in whichever order the engine
    reports the two: the winner is the token with the shorter match, and
    the call returns that token with the shorter length as
    [match_length]. *)
Theorem longest_match_lost_to_int_cast (t : Tokenizer) current_input below
    info i j p q short long n m sym :
  _input_stack t = current_input :: below →
  at_end current_input = false →
  _state_info t !! _current_state t = Some info →
  Set_Match (re_set info) (stream current_input) = [i; j]
  ∨ Set_Match (re_set info) (stream current_input) = [j; i] →
  tokens info !! i = Some p → _tokens t !! p = Some short →
  re_match (get_pattern short) (stream current_input) = Some n →
  tokens info !! j = Some q → _tokens t !! q = Some long →
  re_match (get_pattern long) (stream current_input) = Some m →
  (Z.of_nat n ≤ INT_MAX)%Z →
  (INT_MAX < Z.of_nat m < 2 ^ 32)%Z →
  get_symbol short = Some sym →
  get_transition_to_state short = None →
  match_at t info (stream current_input) i = Some n ∧
  match_at t info (stream current_input) j = Some m ∧
  n < m ∧
  select_best t info (stream current_input)
    (Set_Match (re_set info) (stream current_input))
  = Done (p, Z.of_nat n) ∧
  ∀ fuel,
    next_token value_init (S fuel) t
    = Some (Done (Some {| symbol := sym;
                          value := value_of value_init short
                                     (stream current_input) n;
                          match_length := n |},
                  consumed t current_input below n (_current_state t))).
Proof.
  intros Hst Hend Hinfo Hset Hp Hshort Hn Hq Hlong Hm Hsmall Hbig Hsym Htr.
  assert (Hw : select_best t info (stream current_input)
                 (Set_Match (re_set info) (stream current_input))
               = Done (p, Z.of_nat n)).
  { unfold select_best. destruct Hset as [-> | ->]; simpl.
    - rewrite (examine_matched t info _ _ i p short n Hp Hshort Hn). simpl.
      rewrite (static_cast_int_small n Hsmall).
      destruct (Z.ltb_spec (-1) (Z.of_nat n)) as [_|Hneg]; [|lia]. simpl.
      rewrite (examine_matched t info _ _ j q long m Hq Hlong Hm). simpl.
      rewrite (static_cast_int_wrapped m Hbig).
      destruct (Z.ltb_spec (Z.of_nat n) (Z.of_nat m - 2 ^ 32)) as [Hlt|_];
        [lia|]. done.
    - rewrite (examine_matched t info _ _ j q long m Hq Hlong Hm). simpl.
      rewrite (static_cast_int_wrapped m Hbig).
      destruct (Z.ltb_spec (-1) (Z.of_nat m - 2 ^ 32)) as [Hlt|_];
        [lia|]. simpl.
      rewrite (examine_matched t info _ _ i p short n Hp Hshort Hn). simpl.
      rewrite (static_cast_int_small n Hsmall).
      destruct (Z.ltb_spec (-1) (Z.of_nat n)) as [_|Hneg]; [|lia]. done. }
  unfold match_at. rewrite Hp, Hq. simpl. rewrite Hshort, Hlong. simpl.
  split; [done|]. split; [done|]. split; [unfold INT_MAX in *; lia|].
  split; [done|]. intros fuel. simpl. unfold next_token_round.
  rewrite Hst, Hend, Hinfo. simpl. rewrite Hw.
  assert (consume value_init t current_input below p (Z.of_nat n)
          = Done (Return
              (Some {| symbol := sym;
                       value := value_of value_init short
                                  (stream current_input) n;
                       match_length := n |})
              (consumed t current_input below n (_current_state t))))
    as Hc.
  { rewrite (consume_spec value_init t _ _ _ short n Hshort)
      by by apply (re_match_size _ _ _ Hn).
    rewrite Htr. simpl. by rewrite Hsym. }
  destruct Hset as [-> | ->]; simpl; by rewrite Hc.
Qed.

(** C6, where the code departs from it.  The number of characters a round
    removes from the stream is [longest_match], the size of the match
    cast to [int].  When a skip token wins with a match of 2^32
    characters or more, the cast wraps round: the round removes [k]
    characters, the size of the match modulo 2^32, which is fewer than the
    match has, and goes round again on a stream that still begins with
    characters of that match. *)
Theorem skip_match_lost_to_int_cast (t : Tokenizer) current_input below
    info i p token m k :
  _input_stack t = current_input :: below →
  at_end current_input = false →
  _state_info t !! _current_state t = Some info →
  Set_Match (re_set info) (stream current_input) = [i] →
  tokens info !! i = Some p → _tokens t !! p = Some token →
  get_symbol token = None →
  get_transition_to_state token = None →
  re_match (get_pattern token) (stream current_input) = Some m →
  static_cast_int m = Z.of_nat k →
  k < m →
  select_best t info (stream current_input)
    (Set_Match (re_set info) (stream current_input))
  = Done (p, Z.of_nat k) ∧
  ∃ t1 current_input',
    next_token_round value_init t = Done (Continue t1) ∧
    (∀ fuel, next_token value_init (S fuel) t
             = next_token value_init fuel t1) ∧
    _input_stack t1 = current_input' :: below ∧
    stream current_input' = remove_prefix k (stream current_input) ∧
    String.length (stream current_input) - m
    < String.length (stream current_input').
Proof.
  intros Hst Hend Hinfo Hset Hp Htoken Hsym Htr Hm Hcast Hk.
  assert (Hsize := re_match_size _ _ _ Hm).
  assert (Hw : select_best t info (stream current_input)
                 (Set_Match (re_set info) (stream current_input))
               = Done (p, Z.of_nat k)).
  { rewrite Hset. unfold select_best. simpl.
    rewrite (examine_matched t info _ _ i p token m Hp Htoken Hm). simpl.
    rewrite Hcast.
    destruct (Z.ltb_spec (-1) (Z.of_nat k)) as [_|Hneg]; [|lia]. done. }
  split; [done|].
  assert (Hr : next_token_round value_init t
               = Done (Continue (consumed t current_input below k
                                   (_current_state t)))).
  { unfold next_token_round. rewrite Hst, Hend, Hinfo. simpl.
    rewrite Hw, Hset. simpl.
    rewrite (consume_spec value_init t _ _ _ token k Htoken) by lia.
    rewrite Htr. simpl. by rewrite Hsym. }
  eexists _, _. split; [exact Hr|]. split.
  { intros fuel. simpl. by rewrite Hr. }
  simpl. split; [reflexivity|]. split; [reflexivity|]. simpl.
  rewrite remove_prefix_length by lia. lia.
Qed.

End truncation.

Section loops.
Context {Symbol ValueT : Type} `{E : Engine} {L : EngineLaws E} `{M : Storage}.
Variable value_init : ValueT.

Abbreviation Tokenizer := (Tokenizer Symbol ValueT).

(** X6. A skip token that wins with an empty match on a stream that is
    not empty, and that names no state, leaves the tokenizer exactly as
    it was, so the loop of [next_token] goes round for ever: the call
    does not return, whatever the bound on the rounds. *)
Theorem empty_skip_match_never_returns (t : Tokenizer) current_input
    below info p token :
  scanning t current_input below info →
  (∃ i, is_Some (match_at t info (stream current_input) i)) →
  select_best t info (stream current_input)
    (Set_Match (re_set info) (stream current_input)) = Done (p, 0%Z) →
  _tokens t !! p = Some token →
  get_symbol token = None →
  get_transition_to_state token = None →
  String.length (stream current_input) ≠ 0 →
  ∀ fuel, next_token value_init fuel t = None.
Proof.
  intros Hsc Hex Hw Htoken Hsym Htr Hlen.
  apply next_token_round_fixpoint.
  destruct (round_of_winner value_init t _ _ _ p token 0 Hsc Hex Hw Htoken)
    as [_ Hok]; [lia|].
  rewrite Hok by (intros state Hs; by rewrite Htr in Hs).
  rewrite Hsym, Htr. simpl. do 2 f_equal.
  destruct Hsc as [Hst _ _ _ _ _]. unfold consumed.
  destruct (Nat.eqb_spec (String.length (stream current_input)) 0);
    [done|].
  destruct t, current_input. simpl in *. by rewrite Hst.
Qed.

(** A round that goes round again, on a tokenizer whose registry is
    aligned and compiled and whose skip tokens consume, has shortened the
    active stream. *)
Lemma skip_round_shortens (t t1 : Tokenizer) current_input below :
  registry_aligned true t → skips_consume t →
  _input_stack t = current_input :: below →
  (Z.of_nat (String.length (stream current_input)) ≤ INT_MAX)%Z →
  next_token_round value_init t = Done (Continue t1) →
  registry_aligned true t1 ∧ skips_consume t1 ∧
  ∃ current_input1,
    _input_stack t1 = current_input1 :: below ∧
    String.length (stream current_input1)
    < String.length (stream current_input).
Proof.
  intros Hal Hskip Hst Hsize Hr.
  destruct (at_end current_input) eqn:Hend.
  { unfold next_token_round in Hr. by rewrite Hst, Hend in Hr. }
  destruct (next_token_round_consumed _ _ _ _ _ Hr Hst Hend)
    as [[=] | (info & i & p & n & token & state & Hinfo & Hi & Hp & Hw
               & Htoken & Hn & _ & Hout)].
  destruct (get_symbol token) as [sym|] eqn:Hsym; [done|].
  injection Hout as ->.
  destruct (Hal _ info Hinfo) as [Ha Hc].
  assert (Hsc : scanning t current_input below info) by by split.
  assert (Hex : ∃ i, is_Some (match_at t info (stream current_input) i)).
  { exists i. by apply (Set_Match_spec t info _ i Hc Ha). }
  destruct (select_best_winner t _ _ _ _ _ Hsc Hex Hw)
    as (l1 & i' & l2 & token' & n' & Hz & _ & Hp' & Htoken' & Hm & _).
  apply Nat2Z.inj in Hz as <-. rewrite Htoken in Htoken'.
  injection Htoken' as <-.
  assert (n ≠ 0).
  { intros ->. unfold match_at in Hm. rewrite Hp' in Hm. simpl in Hm.
    rewrite Htoken in Hm. simpl in Hm.
    by apply (Hskip p token (stream current_input) Htoken Hsym). }
  split; [|split].
  - intros k info' Hk. by apply (Hal k info').
  - done.
  - eexists. split; [reflexivity|]. simpl.
    rewrite remove_prefix_length by done. lia.
Qed.

(** X7. When the registry is aligned and compiled and no token without a
    symbol can match the empty text, [next_token] returns (or stops at an
    assertion or at undefined behaviour) within one round more than the
    number of characters left in the active stream. *)
Theorem next_token_returns_when_skips_consume fuel (t : Tokenizer)
    current_input below :
  registry_aligned true t → skips_consume t →
  _input_stack t = current_input :: below →
  (Z.of_nat (String.length (stream current_input)) ≤ INT_MAX)%Z →
  String.length (stream current_input) < fuel →
  ∃ result, next_token value_init fuel t = Some result.
Proof.
  revert t current_input.
  induction fuel as [|fuel IH]; intros t current_input Hal Hskip Hst
    Hsize Hfuel; [lia|].
  simpl. destruct (next_token_round value_init t) as [[r t'|t1]| |] eqn:Hr;
    eauto.
  destruct (skip_round_shortens _ _ _ _ Hal Hskip Hst Hsize Hr)
    as (Hal1 & Hskip1 & ci1 & Hst1 & Hlt).
  apply (IH t1 ci1); try done; lia.
Qed.

End loops.

Section registry.
Context {Symbol ValueT : Type} `{E : Engine} `{M : Storage}.
Variable value_init : ValueT.

Abbreviation Tokenizer := (Tokenizer Symbol ValueT).

(** A call of [next_token] keeps the grammar, the tokens and the
    registry. *)
Lemma next_token_registry fuel (t : Tokenizer) r t' :
  next_token value_init fuel t = Some (Done (r, t')) →
  _grammar t' = _grammar t ∧ _tokens t' = _tokens t ∧
  _state_info t' = _state_info t.
Proof.
  intros Hn. destruct (_input_stack t) as [|current_input below] eqn:Hst.
  - by destruct (next_token_empty_stack _ _ _ _ _ Hn Hst) as [_ ->].
  - destruct (next_token_advance _ _ _ _ _ _ _ Hn Hst)
      as (Hg & Ht & Hs & _). done.
Qed.

(** What the loop of [add_token] does to the registry: each state named
    in [states] gets the token once for each time it is named, at the end
    of its list; states come into being, none goes away, and the others
    are left alone. *)
Lemma add_token_states_spec pattern tok states
    (m m' : gmap string StateInfo) :
  add_token_states pattern tok states m = Done m' →
  (∀ k, tokens_of m' k
        = tokens_of m k ++ replicate (length (filter (eq k) states)) tok) ∧
  (∀ k, is_Some (m' !! k) ↔ is_Some (m !! k) ∨ k ∈ states) ∧
  (∀ k, k ∉ states → m' !! k = m !! k) ∧
  ((∀ k info, m !! k = Some info → name info = k) →
   ∀ k info, m' !! k = Some info → name info = k).
Proof.
  revert m. induction states as [|state rest IH]; intros m; simpl.
  { intros [= <-]. split; [|split; [|split]]; try done.
    - intros k. by rewrite app_nil_r.
    - intros k. split; [by left|]. intros [Hk|Hk]; [done|].
      by apply elem_of_nil in Hk. }
  destruct (get_or_make_state_info state m) as [m1 state_info] eqn:Hgm.
  destruct (Set_Add pattern (re_set state_info)) as [set' [|]]; [done|].
  intros Hadd. apply IH in Hadd as (Htok & Hdom & Hother & Hname).
  assert (Hinfo : tokens state_info = tokens_of m state ∧
                  name state_info = default state (name <$> m !! state) ∧
                  ∀ k, k ≠ state → m1 !! k = m !! k).
  { unfold get_or_make_state_info, tokens_of in *.
    destruct (m !! state) as [info|] eqn:Hs; simplify_eq; simpl; [done|].
    repeat split. intros k Hk. by rewrite lookup_insert_ne. }
  destruct Hinfo as (Htokens & Hnm & Hm1).
  split; [|split; [|split]].
  - intros k. rewrite Htok. rewrite filter_cons.
    destruct (decide (k = state)) as [->|Hne]; simpl.
    + unfold tokens_of at 1. rewrite lookup_insert_eq. simpl.
      by rewrite Htokens, <- app_assoc.
    + unfold tokens_of. rewrite lookup_insert_ne by congruence.
      by rewrite Hm1.
  - intros k. rewrite Hdom, elem_of_cons.
    destruct (decide (state = k)) as [->|Hne].
    + rewrite lookup_insert_eq. split; [intros _; by right; left|].
      intros _. left. eauto.
    + rewrite lookup_insert_ne, Hm1 by done.
      split; [intros [?|?]; auto | intros [?|[?|?]]; auto; congruence].
  - intros k Hk. apply not_elem_of_cons in Hk as [Hne Hk].
    rewrite (Hother k Hk), lookup_insert_ne by done. by apply Hm1.
  - intros Hnames. apply Hname. intros k info.
    destruct (decide (state = k)) as [->|Hne].
    + rewrite lookup_insert_eq. intros [= <-]. simpl. rewrite Hnm.
      destruct (m !! k) as [info|] eqn:Hk; simpl; [|done].
      by apply Hnames.
    + rewrite lookup_insert_ne, Hm1 by done. apply Hnames.
Qed.

(** In the set-up phase no set is compiled, so the loop of [add_token]
    stops at the assertion exactly when the pattern does not parse and a
    state is named. *)
Lemma add_token_states_result pattern tok states
    (m : gmap string StateInfo) :
  (∀ k info, m !! k = Some info → compiled_ (re_set info) = false) →
  match add_token_states pattern tok states m with
  | Done _ => re_ok pattern = true ∨ states = []
  | AssertionFailed => re_ok pattern = false ∧ states ≠ []
  | Undefined => False
  end.
Proof.
  revert m. induction states as [|state rest IH]; intros m Hm; simpl.
  { by right. }
  unfold get_or_make_state_info.
  assert (∃ m1 state_info,
    match m !! state with
    | Some info => (m, info)
    | None => (<[state:={| name := state; re_set := Set_new;
                           tokens := [] |}]> m,
               {| name := state; re_set := Set_new; tokens := [] |})
    end = (m1, state_info) ∧
    compiled_ (re_set state_info) = false ∧
    ∀ k info, m1 !! k = Some info → compiled_ (re_set info) = false)
    as (m1 & state_info & -> & Hc & Hm1).
  { destruct (m !! state) as [info|] eqn:Hs.
    - exists m, info. eauto.
    - eexists _, _. split; [done|]. split; [done|]. intros k info.
      destruct (decide (state = k)) as [->|Hne].
      + rewrite lookup_insert_eq. by intros [= <-].
      + rewrite lookup_insert_ne by done. apply Hm. }
  unfold Set_Add. rewrite Hc. destruct (re_ok pattern) eqn:Hok; [|done].
  match goal with |- context [add_token_states _ _ _ ?m2] =>
    specialize (IH m2) end.
  destruct (add_token_states _ _ _ _); try done.
  - by left.
  - destruct IH as [[=] _].
    intros k info. destruct (decide (state = k)) as [->|Hne].
    + rewrite lookup_insert_eq. by intros [= <-].
    + rewrite lookup_insert_ne by done. apply Hm1.
  - apply IH. intros k info. destruct (decide (state = k)) as [->|Hne].
    + rewrite lookup_insert_eq. by intros [= <-].
    + rewrite lookup_insert_ne by done. apply Hm1.
Qed.

End registry.

Section phases.
Context {Symbol ValueT : Type} `{E : Engine} `{M : Storage}.
Variable value_init : ValueT.

Abbreviation Tokenizer := (Tokenizer Symbol ValueT).

Lemma add_token_set_up pattern symbol states (t : Tokenizer) p t' :
  add_token pattern symbol states t = Done (p, t') →
  set_up t → set_up t'.
Proof.
  unfold add_token.
  destruct (add_token_states pattern (length (_tokens t)) states
              (_state_info t)) as [m| |] eqn:Hadd; simpl; [|done..].
  intros [= <- <-] (Hidx & (token0 & H0 & Hpat & Hsym) & [rest Hdef] & Hname).
  apply add_token_states_spec in Hadd as (Htok & _ & _ & Hname').
  split; [|split; [|split]]; simpl.
  - intros i token Hi. apply lookup_app_Some in Hi as [Hi|[Hlen Hi]].
    + by apply Hidx.
    + apply list_lookup_singleton_Some in Hi as [Hi <-]. simpl. lia.
  - exists token0. by rewrite (lookup_app_l_Some _ _ _ _ H0).
  - rewrite Htok, Hdef. simpl. eauto.
  - by apply Hname'.
Qed.

Lemma with_token_set_up tok f (t : Tokenizer) :
  (∀ token, get_index (f token) = get_index token ∧
            get_pattern (f token) = get_pattern token ∧
            get_symbol (f token) = get_symbol token) →
  set_up t → set_up (with_token tok f t).
Proof.
  intros Hf (Hidx & (token0 & H0 & Hpat & Hsym) & Hdef & Hname).
  split; [|split; [|split]]; simpl; try done.
  - intros i token. destruct (decide (tok = i)) as [->|Hne].
    + rewrite list_lookup_alter_eq.
      destruct (_tokens t !! i) as [token'|] eqn:Hi; simpl; [|done].
      intros [= <-]. destruct (Hf token') as (-> & _). by apply Hidx.
    + rewrite list_lookup_alter_ne by done. apply Hidx.
  - destruct (decide (tok = 0)) as [->|Hne].
    + exists (f token0). rewrite list_lookup_alter_eq, H0. simpl.
      destruct (Hf token0) as (_ & -> & ->). done.
    + exists token0. by rewrite list_lookup_alter_ne.
Qed.

Lemma Tokenizer_new_set_up grammar (t : Tokenizer) :
  Tokenizer_new grammar = Done t → set_up t.
Proof.
  unfold Tokenizer_new, add_token. simpl.
  unfold get_or_make_state_info. rewrite lookup_empty. simpl.
  rewrite lookup_insert_eq. unfold Set_Add. simpl.
  destruct (re_ok "$"); simpl; [|done]. intros [= <-].
  split; [|split; [|split]]; simpl.
  - intros [|i] token; [by intros [= <-]|done].
  - eauto.
  - unfold tokens_of. rewrite lookup_insert_eq. simpl. eauto.
  - intros k info. destruct (decide (DefaultState = k)) as [<-|Hne].
    + rewrite lookup_insert_eq. by intros [= <-].
    + by rewrite !lookup_insert_ne.
Qed.

Lemma prepare_set_up (t : Tokenizer) : set_up t → set_up (prepare t).
Proof.
  intros (Hidx & Hend & [rest Hdef] & Hname).
  split; [|split; [|split]]; simpl; try done.
  - exists rest. unfold tokens_of in *. rewrite lookup_fmap.
    by destruct (_state_info t !! DefaultState).
  - intros k info. rewrite lookup_fmap.
    destruct (_state_info t !! k) as [info0|] eqn:Hk; simpl; [|done].
    intros [= <-]. simpl. by apply Hname.
Qed.

Lemma registering_set_up (t : Tokenizer) : registering t → set_up t.
Proof.
  induction 1 as [grammar t Hnew|pattern symbol states t p t' _ IH Hadd
                  |tok f t _ IH|tok state t _ IH].
  - by apply (Tokenizer_new_set_up grammar).
  - by apply (add_token_set_up _ _ _ _ _ _ Hadd).
  - by apply with_token_set_up.
  - by apply with_token_set_up.
Qed.

Lemma running_set_up (t : Tokenizer) : running value_init t → set_up t.
Proof.
  induction 1 as [t Hreg|input t _ IH|t t' _ IH Hpop|fuel r t t' _ IH Hn
                  |tok f t _ IH|tok state t _ IH].
  - by apply prepare_set_up, registering_set_up.
  - done.
  - unfold pop_input_stream in Hpop.
    destruct (_input_stack t); [done|].
    destruct (uncovers_dangling t); [done|]. by injection Hpop as <-.
  - destruct (next_token_registry _ _ _ _ _ Hn) as (Hg & Ht & Hs).
    unfold set_up. by rewrite Hg, Ht, Hs.
  - by apply with_token_set_up.
  - by apply with_token_set_up.
Qed.

Lemma registering_aligned (t : Tokenizer) :
  registering t → registry_aligned false t ∧ current_state_registered t.
Proof.
  induction 1 as [grammar t Hnew|pattern symbol states t p t' _ [IHa IHr]
                    Hadd
                  |tok f t _ [IHa IHr]|tok state t _ [IHa IHr]].
  - split; [by apply (Tokenizer_new_aligned grammar)
           | by apply (Tokenizer_new_registered grammar)].
  - split; [by apply (add_token_aligned _ _ _ _ _ _ Hadd)
           | by apply (add_token_registered _ _ _ _ _ _ Hadd)].
  - split; [by apply with_token_aligned | done].
  - split; [by apply with_token_aligned | done].
Qed.

Lemma running_aligned (t : Tokenizer) :
  running value_init t →
  registry_aligned true t ∧ current_state_registered t.
Proof.
  induction 1 as [t Hreg|input t _ [IHa IHr]|t t' _ [IHa IHr] Hpop
                  |fuel r t t' _ [IHa IHr] Hn
                  |tok f t _ [IHa IHr]|tok state t _ [IHa IHr]].
  - apply registering_aligned in Hreg as [Ha Hr].
    split; [by apply (prepare_aligned false)|].
    unfold current_state_registered, prepare in *. simpl.
    rewrite lookup_fmap. destruct Hr as [info ->]. simpl. eauto.
  - done.
  - unfold pop_input_stream in Hpop.
    destruct (_input_stack t); [done|].
    destruct (uncovers_dangling t); [done|]. by injection Hpop as <-.
  - split; [by apply (next_token_aligned _ _ _ _ _ _ Hn)
           | by apply (next_token_registered _ _ _ _ _ Hn)].
  - split; [by apply with_token_aligned | done].
  - split; [by apply with_token_aligned | done].
Qed.

End phases.

Section streams.
Context {Symbol ValueT : Type} `{E : Engine} `{M : Storage}.
Variable value_init : ValueT.

Abbreviation Tokenizer := (Tokenizer Symbol ValueT).








End streams.

Section phase_properties.
Context {Symbol ValueT : Type} `{E : Engine} `{M : Storage}.
Variable value_init : ValueT.

Abbreviation Tokenizer := (Tokenizer Symbol ValueT).

(** X8. In the scanning phase (after the constructor, registrations and
    [prepare], whatever pushes, pops, calls of [next_token] and calls of
    the setters follow) every state of the registry has its set compiled
    and aligned with its tokens and [_current_state] is in the registry:
    a round on a stream that is not at its end and fits [int] is in the
    setting [scanning]. *)
Theorem scanning_phase_is_ready (t : Tokenizer) :
  running value_init t →
  registry_aligned true t ∧ current_state_registered t ∧
  ∀ current_input below,
    _input_stack t = current_input :: below →
    at_end current_input = false →
    (Z.of_nat (String.length (stream current_input)) ≤ INT_MAX)%Z →
    ∃ info, scanning t current_input below info.
Proof.
  intros Hrun. destruct (running_aligned _ _ Hrun) as [Ha Hr].
  split; [done|]. split; [done|].
  intros current_input below. by apply prepared_scanning.
Qed.

(** X9. The index of a token is its position in [_tokens]: [add_token]
    numbers the tokens in the order of their registration, and nothing
    renumbers them. *)
Theorem token_index_is_its_position (t : Tokenizer) :
  registering t ∨ running value_init t →
  ∀ i token, _tokens t !! i = Some token → get_index token = i.
Proof.
  intros [Hreg|Hrun].
  - by destruct (registering_set_up _ Hreg) as (Hidx & _).
  - by destruct (running_set_up _ _ Hrun) as (Hidx & _).
Qed.

(** X10. [get_end_token] is defined and points to the first token, which
    has the pattern [$] and the end-of-input symbol of the grammar, and
    which is the first token of the state [@default], whatever was
    registered after the constructor. *)
Theorem end_token_is_kept (t : Tokenizer) :
  registering t ∨ running value_init t →
  get_end_token t = Done 0 ∧
  ∃ token rest,
    _tokens t !! 0 = Some token ∧
    get_pattern token = "$"%string ∧
    get_symbol token = Some (get_end_of_input_symbol (_grammar t)) ∧
    tokens_of (_state_info t) DefaultState = 0 :: rest.
Proof.
  intros Hphase.
  assert (set_up t) as (_ & (token & H0 & Hpat & Hsym) & [rest Hdef] & _).
  { destruct Hphase as [Hreg|Hrun];
      [by apply registering_set_up | by apply (running_set_up value_init)]. }
  split; [|by exists token, rest].
  unfold get_end_token. by destruct (_tokens t).
Qed.

(** X11. Every entry of the registry is filed under its own name, every
    pointer in its token list points into [_tokens], and its set has as
    many patterns as the state has tokens. *)
Theorem registry_entries_are_well_formed (t : Tokenizer) :
  registering t ∨ running value_init t →
  ∀ k info, _state_info t !! k = Some info →
    name info = k ∧
    (∀ p, p ∈ tokens info → p < length (_tokens t)) ∧
    length (elem_ (re_set info)) = length (tokens info).
Proof.
  intros Hphase k info Hk.
  assert (set_up t ∧ aligned t info) as [(_ & _ & _ & Hname) Ha].
  { destruct Hphase as [Hreg|Hrun].
    - split; [by apply registering_set_up|].
      destruct (registering_aligned _ Hreg) as [Hal _].
      by destruct (Hal k info Hk).
    - split; [by apply (running_set_up value_init)|].
      destruct (running_aligned _ _ Hrun) as [Hal _].
      by destruct (Hal k info Hk). }
  split; [by apply Hname|]. split.
  - intros p [i Hi]%list_elem_of_lookup.
    assert (Hl := aligned_lookup t info i Ha). rewrite Hi in Hl.
    simpl in Hl. destruct (_tokens t !! p) as [token|] eqn:Hp.
    + by apply lookup_lt_Some in Hp.
    + simpl in Hl. assert (Hf := f_equal (λ l, l !! i) Ha). simpl in Hf.
      rewrite !list_lookup_fmap, Hi, Hl in Hf. simpl in Hf.
      rewrite Hp in Hf. done.
  - unfold aligned in Ha. apply (f_equal length) in Ha.
    by rewrite !length_fmap in Ha.
Qed.

(** X12. In the set-up phase [add_token] completes, and returns the
    number of tokens registered before as the pointer to the new one,
    when the pattern parses or no state is named; it stops at its
    assertion when the pattern does not parse and a state is named. *)
Theorem add_token_completes_iff_pattern_parses (t : Tokenizer) pattern
    symbol states :
  registering t →
  (re_ok pattern = true ∨ states = [] →
   ∃ t', add_token pattern symbol states t
         = Done (length (_tokens t), t')) ∧
  (re_ok pattern = false → states ≠ [] →
   add_token pattern symbol states t = AssertionFailed).
Proof.
  intros Hreg. destruct (registering_aligned _ Hreg) as [Hal _].
  assert (Hres := add_token_states_result pattern (length (_tokens t))
                    states (_state_info t)).
  unfold add_token.
  destruct (add_token_states pattern (length (_tokens t)) states
              (_state_info t)) as [m| |]; simpl.
  - split; [eauto|]. intros Hok Hne.
    destruct Hres as [Hres|Hres]; [|congruence|done].
    intros k info Hk. by destruct (Hal k info Hk).
  - destruct Hres as [Hok Hne].
    { intros k info Hk. by destruct (Hal k info Hk). }
    split; [|done]. intros [Hok'|Hnil]; congruence.
  - destruct Hres. intros k info Hk. by destruct (Hal k info Hk).
Qed.

(** X13. [add_token] puts the new token, with the pattern and symbol
    given and neither action nor transition, at the end of [_tokens], and
    its pointer at the end of the token list of every state named, once
    for each time the state is named; a state named for the first time
    comes into being, every other entry of the registry is left as it
    was, and so are the input stack and the current state. *)
Theorem add_token_appends_to_each_named_state pattern symbol states
    (t : Tokenizer) p t' :
  add_token pattern symbol states t = Done (p, t') →
  p = length (_tokens t) ∧
  _tokens t'
  = _tokens t ++ [{| get_index := p; get_pattern := pattern;
                     get_symbol := symbol; get_action := None;
                     get_transition_to_state := None |}] ∧
  (∀ k, tokens_of (_state_info t') k
        = tokens_of (_state_info t) k
          ++ replicate (length (filter (eq k) states)) p) ∧
  (∀ k, is_Some (_state_info t' !! k) ↔
        is_Some (_state_info t !! k) ∨ k ∈ states) ∧
  (∀ k, k ∉ states → _state_info t' !! k = _state_info t !! k) ∧
  _input_stack t' = _input_stack t ∧
  _current_state t' = _current_state t.
Proof.
  unfold add_token.
  destruct (add_token_states pattern (length (_tokens t)) states
              (_state_info t)) as [m| |] eqn:Hadd; simpl; [|done..].
  intros [= <- <-]. simpl.
  apply add_token_states_spec in Hadd as (Htok & Hdom & Hother & _).
  done.
Qed.

End phase_properties.

(** ** Properties of reading an input stream *)

Lemma append_cons (c : ascii) (s t : string) :
  String.append (String c s) t = String c (String.append s t).
Proof. reflexivity. Qed.

Lemma append_empty_l (t : string) : String.append EmptyString t = t.
Proof. reflexivity. Qed.

Lemma append_empty_r (s : string) : String.append s EmptyString = s.
Proof.
  induction s as [|c s IH]; [done|]. by rewrite append_cons, IH.
Qed.

Lemma append_assoc (a b c : string) :
  String.append (String.append a b) c = String.append a (String.append b c).
Proof.
  induction a as [|x a IH]; [done|]. by rewrite !append_cons, IH.
Qed.

Lemma string_view_remove_prefix (n : nat) (s : string) :
  String.append (string_view s n) (remove_prefix n s) = s.
Proof.
  revert s. induction n as [|n IH]; intros [|c s]; simpl;
    rewrite ?append_empty_l, ?append_cons; try done.
  by rewrite IH.
Qed.

Lemma read_stream_S (fuel : nat) (s : IStream) (input : string) :
  read_stream (S fuel) s input
  = if good s then
      let '(block, s') := istream_read block_size s in
      read_stream fuel s' (String.append input block)
    else Some input.
Proof. reflexivity. Qed.

(** The loop hands over everything a good stream has left, after what
    was read before. *)
Lemma read_stream_all (fuel : nat) (s : IStream) (input : string) :
  good s = true →
  String.length (unread s) < fuel * block_size →
  read_stream (S fuel) s input = Some (String.append input (unread s)).
Proof.
  revert s input. induction fuel as [|fuel IH]; intros s input Hgood Hlen.
  { rewrite Nat.mul_0_l in Hlen. lia. }
  rewrite Nat.mul_succ_l in Hlen.
  rewrite read_stream_S, Hgood. unfold istream_read. rewrite Hgood.
  destruct (Nat.leb_spec block_size (String.length (unread s))) as [Hle|Hlt].
  - set (s' := {| unread := remove_prefix block_size (unread s);
                  good := true |}).
    rewrite (IH s'); [|done|].
    + unfold s'. cbn [unread].
      by rewrite append_assoc, string_view_remove_prefix.
    + unfold s'. cbn [unread]. rewrite remove_prefix_length by done. lia.
  - by rewrite read_stream_S.
Qed.

Section reading_properties.
Context {Symbol ValueT : Type} `{M : Storage}.

(** X15. [push_input_stream] buffers the whole stream: from a good
    stream, the new entry of the stack has everything the stream had left
    as its content and as its cursor, with [at_end] unset, whatever the
    length is with respect to the block size; the loop ends within one
    round more than the number of blocks begun.  From a stream that is
    not good it pushes an empty entry. *)
Theorem push_input_stream_buffers_everything (fuel : nat) (s : IStream)
    (t : Tokenizer Symbol ValueT) :
  String.length (unread s) < fuel * block_size →
  push_input_stream_from (S fuel) s t
  = Some (push_input_stream (if good s then unread s else EmptyString) t) ∧
  (_input_stack <$> push_input_stream_from (S fuel) s t)
  = Some ({| content := if good s then unread s else EmptyString;
             stream := if good s then unread s else EmptyString;
             at_end := false |} :: _input_stack t).
Proof.
  intros Hlen. unfold push_input_stream_from.
  destruct (good s) eqn:Hgood.
  - by rewrite read_stream_all.
  - by rewrite read_stream_S, Hgood.
Qed.

End reading_properties.

(** ** The properties on the sample tokenizers *)

Section ascending.
#[local] Existing Instance Wildcard.ascending.
#[local] Existing Instance Doubling.storage.

Lemma longest_match_wins_witness :
  scanning (Sample.lexer "abcabd") (Sample.pushed "abcabd") []
    Sample.default_info ∧
  (∃ i, is_Some (match_at (Sample.lexer "abcabd") Sample.default_info
                   (stream (Sample.pushed "abcabd")) i)) ∧
  ∃ i p token n,
    tokens Sample.default_info !! i = Some p ∧
    _tokens (Sample.lexer "abcabd") !! p = Some token ∧
    select_best (Sample.lexer "abcabd") Sample.default_info
      (stream (Sample.pushed "abcabd"))
      (Set_Match (re_set Sample.default_info)
         (stream (Sample.pushed "abcabd")))
    = Done (p, Z.of_nat n) ∧
    match_at (Sample.lexer "abcabd") Sample.default_info
      (stream (Sample.pushed "abcabd")) i = Some n ∧
    (∀ j m, match_at (Sample.lexer "abcabd") Sample.default_info
              (stream (Sample.pushed "abcabd")) j = Some m → m ≤ n) ∧
    (∀ r t', next_token_round "" (Sample.lexer "abcabd")
             = Done (Return r t') →
             match_length <$> r = Some n) ∧
    (∀ sym, get_symbol token = Some sym →
       transition_registered (Sample.lexer "abcabd") token →
       ∃ v t', ∀ fuel,
         next_token "" (S fuel) (Sample.lexer "abcabd") =
         Some (Done (Some {| symbol := sym; value := v;
                             match_length := n |}, t'))).
Proof.
  assert (H1 : scanning (Sample.lexer "abcabd") (Sample.pushed "abcabd") []
                 Sample.default_info) by (split; by vm_compute).
  assert (H2 : ∃ i, is_Some (match_at (Sample.lexer "abcabd")
                  Sample.default_info (stream (Sample.pushed "abcabd")) i))
    by (exists 1; vm_compute; eauto).
  split; [exact H1|]. split; [exact H2|].
  exact (longest_match_wins "" _ _ _ _ H1 H2).
Defined.

(** A match that consumes the last characters of the stream leaves
    [at_end] unset, although nothing is left after it; the flag is set by
    the next call, which matches ["$"] on the empty rest. *)
Lemma at_end_not_set_by_last_match :
  ∃ t1 t2,
    next_token "" 1 (Sample.lexer "ab")
    = Some (Done (Some {| symbol := "S1"; value := "";
                          match_length := 2 |}, t1)) ∧
    _input_stack t1
    = [{| content := "ab"; stream := ""; at_end := false |}] ∧
    next_token "" 1 t1
    = Some (Done (Some {| symbol := "$end"; value := "";
                          match_length := 0 |}, t2)) ∧
    _input_stack t2
    = [{| content := "ab"; stream := ""; at_end := true |}].
Proof.
  eexists _, _. split; [by vm_compute|]. split; [by vm_compute|].
  split; by vm_compute.
Defined.

Lemma at_end_set_when_already_empty_witness :
  scanning (Sample.lexer "ab") (Sample.pushed "ab") []
    Sample.default_info ∧
  (∃ i, is_Some (match_at (Sample.lexer "ab") Sample.default_info
                   (stream (Sample.pushed "ab")) i)) ∧
  ∃ p token n,
    select_best (Sample.lexer "ab") Sample.default_info
      (stream (Sample.pushed "ab"))
      (Set_Match (re_set Sample.default_info) (stream (Sample.pushed "ab")))
    = Done (p, Z.of_nat n) ∧
    _tokens (Sample.lexer "ab") !! p = Some token ∧
    (transition_registered (Sample.lexer "ab") token →
     ∃ out current_input',
       next_token_round "" (Sample.lexer "ab") = Done out ∧
       _input_stack (round_tokenizer out) = current_input' :: [] ∧
       stream current_input'
       = remove_prefix n (stream (Sample.pushed "ab")) ∧
       (at_end current_input' = true ↔
        String.length (stream (Sample.pushed "ab")) = 0) ∧
       (String.length (stream (Sample.pushed "ab")) = 0 → n = 0)).
Proof.
  assert (H1 : scanning (Sample.lexer "ab") (Sample.pushed "ab") []
                 Sample.default_info) by (split; by vm_compute).
  assert (H2 : ∃ i, is_Some (match_at (Sample.lexer "ab")
                  Sample.default_info (stream (Sample.pushed "ab")) i))
    by (exists 1; vm_compute; eauto).
  split; [exact H1|]. split; [exact H2|].
  exact (at_end_set_when_already_empty "" _ _ _ _ H1 H2).
Defined.



(** The stream on top is at its end.  The stream beneath holds more than
    15 characters, so its characters stayed where they were when the push
    moved the entry: its view is intact, the pop is defined, and the next
    call skips the blank and returns the [ab] that follows it. *)
Example nested_streams :
  _input_stack Sample.nested_read
  = [{| content := "ab"; stream := ""; at_end := true |};
     {| content := "abc ab ab ab ab ab"; stream := " ab ab ab ab ab";
        at_end := false |}] ∧
  _input_stack_dangling Sample.nested_read = [false; false] ∧
  pop_input_stream Sample.nested_read = Done Sample.resumed ∧
  _input_stack Sample.resumed = _input_stack Sample.outer ∧
  fst (Sample.call 2 Sample.resumed)
  = Some {| symbol := "S1"; value := ""; match_length := 2 |}.
Proof. do 4 (split; [by vm_compute|]). by vm_compute. Qed.

(** On a stream of five characters the same calls leave the view of the
    stream beneath dangling: the string keeps so short a content in
    place, and the push moved it. *)
Example short_stream_beneath_dangles :
  _input_stack Sample.short_nested_read
  = [{| content := "ab"; stream := ""; at_end := true |};
     {| content := "abcab"; stream := "ab"; at_end := false |}] ∧
  _input_stack_dangling Sample.short_nested_read = [false; true] ∧
  pop_input_stream Sample.short_nested_read = Undefined.
Proof. do 2 (split; [by vm_compute|]). by vm_compute. Qed.


Lemma lexical_failure_witness :
  _input_stack (Sample.lexer "d") = Sample.pushed "d" :: [] ∧
  at_end (Sample.pushed "d") = false ∧
  _state_info (Sample.lexer "d") !! _current_state (Sample.lexer "d")
  = Some Sample.default_info ∧
  compiled_ (re_set Sample.default_info) = true ∧
  aligned (Sample.lexer "d") Sample.default_info ∧
  (∀ i, match_at (Sample.lexer "d") Sample.default_info
          (stream (Sample.pushed "d")) i = None) ∧
  ∀ fuel,
    next_token "" (S fuel) (Sample.lexer "d")
    = Some (Done (None, Sample.lexer "d")) ∧
    next_token "" (S fuel) (Sample.lexer "d")
    ≠ Some (Done (Some (end_of_input_match "" (Sample.lexer "d")),
                  Sample.lexer "d")).
Proof.
  assert (H6 : ∀ i, match_at (Sample.lexer "d") Sample.default_info
                      (stream (Sample.pushed "d")) i = None)
    by (intros [|[|[|[|[|i]]]]]; by vm_compute).
  do 5 (split; [by vm_compute|]). split; [exact H6|].
  refine (lexical_failure "" _ _ _ _ _ _ _ _ _ H6); by vm_compute.
Defined.

Lemma skip_token_is_consumed_silently_witness :
  scanning (Sample.lexer " ab") (Sample.pushed " ab") []
    Sample.default_info ∧
  (∃ i, is_Some (match_at (Sample.lexer " ab") Sample.default_info
                   (stream (Sample.pushed " ab")) i)) ∧
  select_best (Sample.lexer " ab") Sample.default_info
    (stream (Sample.pushed " ab"))
    (Set_Match (re_set Sample.default_info) (stream (Sample.pushed " ab")))
  = Done (3, Z.of_nat 1) ∧
  _tokens (Sample.lexer " ab") !! 3 = Some Sample.blank ∧
  get_symbol Sample.blank = None ∧
  transition_registered (Sample.lexer " ab") Sample.blank ∧
  ∃ t1 current_input',
    next_token_round "" (Sample.lexer " ab") = Done (Continue t1) ∧
    (∀ r t', next_token_round "" (Sample.lexer " ab")
             ≠ Done (Return r t')) ∧
    _input_stack t1 = current_input' :: [] ∧
    stream current_input'
    = remove_prefix 1 (stream (Sample.pushed " ab")) ∧
    String.length (stream current_input')
    = String.length (stream (Sample.pushed " ab")) - 1 ∧
    _state_info t1 = _state_info (Sample.lexer " ab") ∧
    _current_state t1
    = default (_current_state (Sample.lexer " ab"))
        (get_transition_to_state Sample.blank) ∧
    (∀ fuel, next_token "" (S fuel) (Sample.lexer " ab")
             = next_token "" fuel t1) ∧
    next_token "" 1 (Sample.lexer " ab") = None ∧
    (∀ r t', next_token_round "" t1 = Done (Return r t') →
       ∀ fuel, next_token "" (S (S fuel)) (Sample.lexer " ab")
               = Some (Done (r, t'))).
Proof.
  assert (H1 : scanning (Sample.lexer " ab") (Sample.pushed " ab") []
                 Sample.default_info) by (split; by vm_compute).
  assert (H2 : ∃ i, is_Some (match_at (Sample.lexer " ab")
                  Sample.default_info (stream (Sample.pushed " ab")) i))
    by (exists 3; vm_compute; eauto).
  assert (H6 : transition_registered (Sample.lexer " ab") Sample.blank)
    by (intros state Hs; discriminate Hs).
  split; [exact H1|]. split; [exact H2|].
  do 3 (split; [by vm_compute|]). split; [exact H6|].
  refine (skip_token_is_consumed_silently "" _ _ _ _ _ _ _ H1 H2 _ _ _ H6);
    by vm_compute.
Defined.

(** After the blank was skipped, the same call returns [S1] for [ab]. *)
Example skip_then_token :
  ∃ t', next_token "" 2 (Sample.lexer " ab")
        = Some (Done (Some {| symbol := "S1"; value := "";
                              match_length := 2 |}, t')).
Proof. eexists. by vm_compute. Qed.

Lemma transition_takes_effect_after_match_witness :
  scanning (Sample.lexer "#x") (Sample.pushed "#x") []
    Sample.default_info ∧
  (∃ i, is_Some (match_at (Sample.lexer "#x") Sample.default_info
                   (stream (Sample.pushed "#x")) i)) ∧
  select_best (Sample.lexer "#x") Sample.default_info
    (stream (Sample.pushed "#x"))
    (Set_Match (re_set Sample.default_info) (stream (Sample.pushed "#x")))
  = Done (4, Z.of_nat 1) ∧
  _tokens (Sample.lexer "#x") !! 4 = Some Sample.hash ∧
  get_transition_to_state Sample.hash = Some "tag" ∧
  is_Some (_state_info (Sample.lexer "#x") !! "tag") ∧
  (∃ i, tokens Sample.default_info !! i = Some 4 ∧
        match_at (Sample.lexer "#x") Sample.default_info
          (stream (Sample.pushed "#x")) i = Some 1) ∧
  ∃ out,
    next_token_round "" (Sample.lexer "#x") = Done out ∧
    _current_state (round_tokenizer out) = "tag" ∧
    _state_info (round_tokenizer out) = _state_info (Sample.lexer "#x") ∧
    match get_symbol Sample.hash with
    | None =>
        ∀ fuel, next_token "" (S fuel) (Sample.lexer "#x")
                = next_token "" fuel (round_tokenizer out)
    | Some sym =>
        ∃ v, ∀ fuel,
          next_token "" (S fuel) (Sample.lexer "#x")
          = Some (Done (Some {| symbol := sym; value := v;
                                match_length := 1 |},
                        round_tokenizer out))
    end.
Proof.
  assert (H1 : scanning (Sample.lexer "#x") (Sample.pushed "#x") []
                 Sample.default_info) by (split; by vm_compute).
  assert (H2 : ∃ i, is_Some (match_at (Sample.lexer "#x")
                  Sample.default_info (stream (Sample.pushed "#x")) i))
    by (exists 4; vm_compute; eauto).
  assert (H6 : is_Some (_state_info (Sample.lexer "#x") !! "tag"))
    by (exists Sample.tag_info; by vm_compute).
  split; [exact H1|]. split; [exact H2|].
  do 3 (split; [by vm_compute|]). split; [exact H6|].
  refine (transition_takes_effect_after_match "" _ _ _ _ _ Sample.hash _ _
            H1 H2 _ _ _ H6); by vm_compute.
Defined.

(** The token [x] belongs to the state [tag] only: the call that skips
    [#] returns [X], matched in the state the skip token switched to. *)
Example skip_token_switches_state :
  ∃ t', next_token "" 2 (Sample.lexer "#x")
        = Some (Done (Some {| symbol := "X"; value := "";
                              match_length := 1 |}, t')) ∧
        _current_state t' = "tag".
Proof. eexists. split; by vm_compute. Qed.

Lemma current_state_stays_registered_witness :
  current_state_registered (Sample.lexer "#!") ∧
  (∀ pattern symbol states p t',
     add_token pattern symbol states (Sample.lexer "#!") = Done (p, t') →
     current_state_registered t') ∧
  (∀ tok f,
     current_state_registered (with_token tok f (Sample.lexer "#!"))) ∧
  current_state_registered (prepare (Sample.lexer "#!")) ∧
  (∀ input,
     current_state_registered (push_input_stream input (Sample.lexer "#!"))) ∧
  (∀ t', pop_input_stream (Sample.lexer "#!") = Done t' →
         current_state_registered t') ∧
  (∀ fuel r t',
     next_token "" fuel (Sample.lexer "#!") = Some (Done (r, t')) →
     current_state_registered t') ∧
  (∀ current_input below info p n token state,
     scanning (Sample.lexer "#!") current_input below info →
     (∃ i, is_Some (match_at (Sample.lexer "#!") info
                      (stream current_input) i)) →
     select_best (Sample.lexer "#!") info (stream current_input)
       (Set_Match (re_set info) (stream current_input))
     = Done (p, Z.of_nat n) →
     _tokens (Sample.lexer "#!") !! p = Some token →
     get_transition_to_state token = Some state →
     _state_info (Sample.lexer "#!") !! state = None →
     ∀ fuel, next_token "" (S fuel) (Sample.lexer "#!")
             = Some AssertionFailed).
Proof.
  assert (H1 : current_state_registered (Sample.lexer "#!"))
    by (exists Sample.default_info; by vm_compute).
  split; [exact H1|].
  exact (current_state_stays_registered "" _ H1).
Defined.

(** The token [!] of the state [tag] names the state [nowhere], which is
    not in the registry: the call that reaches it stops at the assertion
    of [enter_state]. *)
Example unknown_state_aborts :
  _state_info (Sample.lexer "#!") !! "nowhere" = None ∧
  next_token "" 2 (Sample.lexer "#!") = Some AssertionFailed.
Proof. split; by vm_compute. Qed.

(** A call that skips a blank and then finds no pattern to match returns
    "no token" with the cursor past the blank: the tokenizer is not the
    one the call began with. *)
Lemma no_token_after_skip_changes_state :
  ∃ t',
    next_token "" 2 (Sample.lexer " d") = Some (Done (None, t')) ∧
    _input_stack (Sample.lexer " d")
    = [{| content := " d"; stream := " d"; at_end := false |}] ∧
    _input_stack t'
    = [{| content := " d"; stream := "d"; at_end := false |}] ∧
    t' ≠ Sample.lexer " d".
Proof.
  eexists. split; [by vm_compute|]. split; [by vm_compute|].
  split; [by vm_compute|].
  intros Heq. apply (f_equal _input_stack) in Heq.
  vm_compute in Heq. discriminate Heq.
Defined.

Lemma no_token_round_changes_nothing_witness :
  next_token "" 2 (Sample.lexer " d")
  = Some (Done (None, consumed (Sample.lexer " d") (Sample.pushed " d") []
                        1 "@default")) ∧
  skipped "" (Sample.lexer " d")
    (consumed (Sample.lexer " d") (Sample.pushed " d") [] 1 "@default") ∧
  next_token_round ""
    (consumed (Sample.lexer " d") (Sample.pushed " d") [] 1 "@default")
  = Done (Return None
            (consumed (Sample.lexer " d") (Sample.pushed " d") []
               1 "@default")) ∧
  ((∀ t1, next_token_round "" (Sample.lexer " d") ≠ Done (Continue t1)) →
   consumed (Sample.lexer " d") (Sample.pushed " d") [] 1 "@default"
   = Sample.lexer " d").
Proof.
  assert (H1 : next_token "" 2 (Sample.lexer " d")
    = Some (Done (None, consumed (Sample.lexer " d") (Sample.pushed " d")
                          [] 1 "@default"))) by by vm_compute.
  split; [exact H1|].
  exact (no_token_round_changes_nothing "" 2 _ _ H1).
Defined.

End ascending.

Section repeat.
#[local] Existing Instance Repeat.engine.
#[local] Existing Instance Doubling.storage.

(** The tokenizer [Sample.repeats] on any input, and what the engine
    answers on a run of the letter [a] and on a run of blanks. *)

Lemma repeats_stack (input : string) :
  _input_stack (Sample.repeats input) = Sample.pushed input :: [].
Proof. by vm_compute. Qed.

Lemma repeats_state (input : string) :
  _state_info (Sample.repeats input) !! _current_state (Sample.repeats input)
  = Some Sample.repeats_info.
Proof. by vm_compute. Qed.

Lemma repeats_letter (input : string) :
  _tokens (Sample.repeats input) !! 1 = Some Sample.letter.
Proof. by vm_compute. Qed.

Lemma repeats_letters (input : string) :
  _tokens (Sample.repeats input) !! 2 = Some Sample.letters.
Proof. by vm_compute. Qed.

Lemma repeats_blanks (input : string) :
  _tokens (Sample.repeats input) !! 3 = Some Sample.blanks.
Proof. by vm_compute. Qed.

Lemma letters_reported (n : nat) :
  n ≠ 0 →
  Set_Match (re_set Sample.repeats_info)
    (stream (Sample.pushed (Repeat.run "a" n))) = [1; 2].
Proof. destruct n as [|n]; [done|]. intros _. by vm_compute. Qed.

Lemma letter_matched (n : nat) :
  n ≠ 0 →
  re_match (get_pattern Sample.letter)
    (stream (Sample.pushed (Repeat.run "a" n))) = Some 1.
Proof. destruct n as [|n]; [done|]. intros _. by vm_compute. Qed.

Lemma letters_matched (n : nat) :
  n ≠ 0 →
  re_match (get_pattern Sample.letters)
    (stream (Sample.pushed (Repeat.run "a" n))) = Some n.
Proof.
  intros Hn. simpl. unfold Repeat.repeat_match. simpl.
  rewrite run_length_run. by destruct n.
Qed.

Lemma blanks_reported (n : nat) :
  n ≠ 0 →
  Set_Match (re_set Sample.repeats_info)
    (stream (Sample.pushed (Repeat.run " " n))) = [3].
Proof. destruct n as [|n]; [done|]. intros _. by vm_compute. Qed.

Lemma blanks_matched (n : nat) :
  n ≠ 0 →
  re_match (get_pattern Sample.blanks)
    (stream (Sample.pushed (Repeat.run " " n))) = Some n.
Proof.
  intros Hn. simpl. unfold Repeat.repeat_match. simpl.
  rewrite run_length_run. by destruct n.
Qed.

(** The streams of the two witnesses below have 2^31 and 2^32 + 1
    characters. *)
Example sizes_of_the_long_streams :
  Z.of_nat (String.length (Repeat.run "a" (Z.to_nat 2147483648)))
  = 2147483648%Z ∧
  Z.of_nat (String.length (Repeat.run " " (Z.to_nat 4294967297)))
  = 4294967297%Z.
Proof. rewrite !run_size. split; by rewrite Z2Nat.id. Qed.

(** On 2^31 times the letter [a] both [a] and [a+] match, [a+] all of the
    text; the call returns [A] with length 1. *)
Lemma longest_match_lost_to_int_cast_witness :
  _input_stack (Sample.repeats (Repeat.run "a" (Z.to_nat 2147483648)))
  = Sample.pushed (Repeat.run "a" (Z.to_nat 2147483648)) :: [] ∧
  at_end (Sample.pushed (Repeat.run "a" (Z.to_nat 2147483648))) = false ∧
  _state_info (Sample.repeats (Repeat.run "a" (Z.to_nat 2147483648)))
    !! _current_state (Sample.repeats (Repeat.run "a" (Z.to_nat 2147483648)))
  = Some Sample.repeats_info ∧
  (Set_Match (re_set Sample.repeats_info)
     (stream (Sample.pushed (Repeat.run "a" (Z.to_nat 2147483648))))
   = [1; 2]
   ∨ Set_Match (re_set Sample.repeats_info)
       (stream (Sample.pushed (Repeat.run "a" (Z.to_nat 2147483648))))
     = [2; 1]) ∧
  tokens Sample.repeats_info !! 1 = Some 1 ∧
  _tokens (Sample.repeats (Repeat.run "a" (Z.to_nat 2147483648))) !! 1
  = Some Sample.letter ∧
  re_match (get_pattern Sample.letter)
    (stream (Sample.pushed (Repeat.run "a" (Z.to_nat 2147483648))))
  = Some 1 ∧
  tokens Sample.repeats_info !! 2 = Some 2 ∧
  _tokens (Sample.repeats (Repeat.run "a" (Z.to_nat 2147483648))) !! 2
  = Some Sample.letters ∧
  re_match (get_pattern Sample.letters)
    (stream (Sample.pushed (Repeat.run "a" (Z.to_nat 2147483648))))
  = Some (Z.to_nat 2147483648) ∧
  (Z.of_nat 1 ≤ INT_MAX)%Z ∧
  (INT_MAX < Z.of_nat (Z.to_nat 2147483648) < 2 ^ 32)%Z ∧
  get_symbol Sample.letter = Some "A"%string ∧
  get_transition_to_state Sample.letter = None ∧
  match_at (Sample.repeats (Repeat.run "a" (Z.to_nat 2147483648)))
    Sample.repeats_info
    (stream (Sample.pushed (Repeat.run "a" (Z.to_nat 2147483648)))) 1
  = Some 1 ∧
  match_at (Sample.repeats (Repeat.run "a" (Z.to_nat 2147483648)))
    Sample.repeats_info
    (stream (Sample.pushed (Repeat.run "a" (Z.to_nat 2147483648)))) 2
  = Some (Z.to_nat 2147483648) ∧
  1 < Z.to_nat 2147483648 ∧
  select_best (Sample.repeats (Repeat.run "a" (Z.to_nat 2147483648)))
    Sample.repeats_info
    (stream (Sample.pushed (Repeat.run "a" (Z.to_nat 2147483648))))
    (Set_Match (re_set Sample.repeats_info)
       (stream (Sample.pushed (Repeat.run "a" (Z.to_nat 2147483648)))))
  = Done (1, Z.of_nat 1) ∧
  ∀ fuel,
    next_token "" (S fuel)
      (Sample.repeats (Repeat.run "a" (Z.to_nat 2147483648)))
    = Some (Done (Some {| symbol := "A"%string;
                          value :=
                            value_of "" Sample.letter
                              (stream (Sample.pushed
                                 (Repeat.run "a" (Z.to_nat 2147483648))))
                              1;
                          match_length := 1 |},
                  consumed
                    (Sample.repeats (Repeat.run "a" (Z.to_nat 2147483648)))
                    (Sample.pushed (Repeat.run "a" (Z.to_nat 2147483648)))
                    [] 1
                    (_current_state
                       (Sample.repeats
                          (Repeat.run "a" (Z.to_nat 2147483648)))))).
Proof.
  assert (Hn : Z.to_nat 2147483648 ≠ 0) by lia.
  assert (H11 : (Z.of_nat 1 ≤ INT_MAX)%Z) by (unfold INT_MAX; lia).
  assert (H12 : (INT_MAX < Z.of_nat (Z.to_nat 2147483648) < 2 ^ 32)%Z)
    by (unfold INT_MAX; lia).
  split; [exact (repeats_stack _)|]. split; [reflexivity|].
  split; [exact (repeats_state _)|].
  split; [exact (or_introl (letters_reported _ Hn))|].
  split; [reflexivity|].
  split; [exact (repeats_letter _)|].
  split; [exact (letter_matched _ Hn)|]. split; [reflexivity|].
  split; [exact (repeats_letters _)|].
  split; [exact (letters_matched _ Hn)|].
  split; [exact H11|]. split; [exact H12|].
  split; [reflexivity|]. split; [reflexivity|].
  exact (longest_match_lost_to_int_cast "" _ _ _ _ 1 2 1 2
           Sample.letter Sample.letters 1 (Z.to_nat 2147483648) "A"%string
           (repeats_stack _) eq_refl (repeats_state _)
           (or_introl (letters_reported _ Hn)) eq_refl (repeats_letter _)
           (letter_matched _ Hn) eq_refl (repeats_letters _)
           (letters_matched _ Hn) H11 H12 eq_refl eq_refl).
Defined.

(** On 2^32 + 1 blanks the skip token matches all of the text; the round
    removes one blank and goes round again on 2^32 blanks. *)
Lemma skip_match_lost_to_int_cast_witness :
  _input_stack (Sample.repeats (Repeat.run " " (Z.to_nat 4294967297)))
  = Sample.pushed (Repeat.run " " (Z.to_nat 4294967297)) :: [] ∧
  at_end (Sample.pushed (Repeat.run " " (Z.to_nat 4294967297))) = false ∧
  _state_info (Sample.repeats (Repeat.run " " (Z.to_nat 4294967297)))
    !! _current_state (Sample.repeats (Repeat.run " " (Z.to_nat 4294967297)))
  = Some Sample.repeats_info ∧
  Set_Match (re_set Sample.repeats_info)
    (stream (Sample.pushed (Repeat.run " " (Z.to_nat 4294967297))))
  = [3] ∧
  tokens Sample.repeats_info !! 3 = Some 3 ∧
  _tokens (Sample.repeats (Repeat.run " " (Z.to_nat 4294967297))) !! 3
  = Some Sample.blanks ∧
  get_symbol Sample.blanks = None ∧
  get_transition_to_state Sample.blanks = None ∧
  re_match (get_pattern Sample.blanks)
    (stream (Sample.pushed (Repeat.run " " (Z.to_nat 4294967297))))
  = Some (Z.to_nat 4294967297) ∧
  static_cast_int (Z.to_nat 4294967297) = Z.of_nat 1 ∧
  1 < Z.to_nat 4294967297 ∧
  select_best (Sample.repeats (Repeat.run " " (Z.to_nat 4294967297)))
    Sample.repeats_info
    (stream (Sample.pushed (Repeat.run " " (Z.to_nat 4294967297))))
    (Set_Match (re_set Sample.repeats_info)
       (stream (Sample.pushed (Repeat.run " " (Z.to_nat 4294967297)))))
  = Done (3, Z.of_nat 1) ∧
  ∃ t1 current_input',
    next_token_round ""
      (Sample.repeats (Repeat.run " " (Z.to_nat 4294967297)))
    = Done (Continue t1) ∧
    (∀ fuel,
       next_token "" (S fuel)
         (Sample.repeats (Repeat.run " " (Z.to_nat 4294967297)))
       = next_token "" fuel t1) ∧
    _input_stack t1 = current_input' :: [] ∧
    stream current_input'
    = remove_prefix 1
        (stream (Sample.pushed (Repeat.run " " (Z.to_nat 4294967297)))) ∧
    String.length
      (stream (Sample.pushed (Repeat.run " " (Z.to_nat 4294967297))))
    - Z.to_nat 4294967297
    < String.length (stream current_input').
Proof.
  assert (Hn : Z.to_nat 4294967297 ≠ 0) by lia.
  assert (H10 : static_cast_int (Z.to_nat 4294967297) = Z.of_nat 1).
  { unfold static_cast_int. rewrite Z2Nat.id by lia. reflexivity. }
  assert (H11 : 1 < Z.to_nat 4294967297) by lia.
  split; [exact (repeats_stack _)|]. split; [reflexivity|].
  split; [exact (repeats_state _)|].
  split; [exact (blanks_reported _ Hn)|]. split; [reflexivity|].
  split; [exact (repeats_blanks _)|].
  split; [reflexivity|]. split; [reflexivity|].
  split; [exact (blanks_matched _ Hn)|].
  split; [exact H10|]. split; [exact H11|].
  exact (skip_match_lost_to_int_cast "" _ _ _ _ 3 3 Sample.blanks
           (Z.to_nat 4294967297) 1
           (repeats_stack _) eq_refl (repeats_state _)
           (blanks_reported _ Hn) eq_refl (repeats_blanks _)
           eq_refl eq_refl (blanks_matched _ Hn) H10 H11).
Defined.

End repeat.

Section descending.
#[local] Existing Instance Wildcard.descending.
#[local] Existing Instance Doubling.storage.

(** With an engine that reports the matching indices highest first, [if]
    is returned as [ID] although the token for [KW] was registered before
    the token for [ID] and both match two characters, the longest match
    there is. *)
Lemma earliest_registered_loses_tie :
  scanning (Sample.keywords "if") (Sample.pushed "if") []
    Sample.keywords_info ∧
  get_symbol <$> _tokens (Sample.keywords "if") !! 1 = Some (Some "KW") ∧
  get_symbol <$> _tokens (Sample.keywords "if") !! 2 = Some (Some "ID") ∧
  match_at (Sample.keywords "if") Sample.keywords_info "if" 1 = Some 2 ∧
  match_at (Sample.keywords "if") Sample.keywords_info "if" 2 = Some 2 ∧
  (∀ j m, match_at (Sample.keywords "if") Sample.keywords_info "if" j
          = Some m → m ≤ 2) ∧
  Set_Match (re_set Sample.keywords_info) "if" = [2; 1] ∧
  select_best (Sample.keywords "if") Sample.keywords_info "if"
    (Set_Match (re_set Sample.keywords_info) "if") = Done (2, 2%Z) ∧
  ∃ t', next_token "" 1 (Sample.keywords "if")
        = Some (Done (Some {| symbol := "ID"; value := "";
                              match_length := 2 |}, t')).
Proof.
  split; [split; by vm_compute|].
  do 4 (split; [by vm_compute|]).
  split.
  { intros [|[|[|j]]] m; vm_compute; intros [= <-]; lia. }
  do 2 (split; [by vm_compute|]).
  eexists. by vm_compute.
Defined.

Lemma first_reported_longest_wins_witness :
  scanning (Sample.keywords "if") (Sample.pushed "if") []
    Sample.keywords_info ∧
  (∃ i, is_Some (match_at (Sample.keywords "if") Sample.keywords_info
                   (stream (Sample.pushed "if")) i)) ∧
  ∃ l1 i l2 p n,
    Set_Match (re_set Sample.keywords_info) (stream (Sample.pushed "if"))
    = l1 ++ i :: l2 ∧
    tokens Sample.keywords_info !! i = Some p ∧
    select_best (Sample.keywords "if") Sample.keywords_info
      (stream (Sample.pushed "if"))
      (Set_Match (re_set Sample.keywords_info)
         (stream (Sample.pushed "if")))
    = Done (p, Z.of_nat n) ∧
    match_at (Sample.keywords "if") Sample.keywords_info
      (stream (Sample.pushed "if")) i = Some n ∧
    (∀ j m, match_at (Sample.keywords "if") Sample.keywords_info
              (stream (Sample.pushed "if")) j = Some m → m ≤ n) ∧
    (∀ j m, j ∈ l1 →
       match_at (Sample.keywords "if") Sample.keywords_info
         (stream (Sample.pushed "if")) j = Some m → m < n) ∧
    (StronglySorted lt
       (Set_Match (re_set Sample.keywords_info)
          (stream (Sample.pushed "if"))) →
     ∀ j, match_at (Sample.keywords "if") Sample.keywords_info
            (stream (Sample.pushed "if")) j = Some n → i ≤ j).
Proof.
  assert (H1 : scanning (Sample.keywords "if") (Sample.pushed "if") []
                 Sample.keywords_info) by (split; by vm_compute).
  assert (H2 : ∃ i, is_Some (match_at (Sample.keywords "if")
                  Sample.keywords_info (stream (Sample.pushed "if")) i))
    by (exists 1; vm_compute; eauto).
  split; [exact H1|]. split; [exact H2|].
  exact (first_reported_longest_wins _ _ _ _ H1 H2).
Defined.

End descending.

Section ascending_keywords.
#[local] Existing Instance Wildcard.ascending.
#[local] Existing Instance Doubling.storage.

(** With an engine that reports the matching indices lowest first, the
    same input is returned as [KW]. *)
Example earliest_registered_wins_when_ascending :
  Set_Match (re_set Sample.keywords_info) "if" = [1; 2] ∧
  ∃ t', next_token "" 1 (Sample.keywords "if")
        = Some (Done (Some {| symbol := "KW"; value := "";
                              match_length := 2 |}, t')).
Proof. split; [by vm_compute|]. eexists. by vm_compute. Qed.

End ascending_keywords.

(** ** The properties of the interface on the sample tokenizers *)

Section session.
#[local] Existing Instance Wildcard.ascending.
#[local] Existing Instance Doubling.storage.

Lemma registering_with_blank : registering Session.with_blank.
Proof.
  eapply (registering_add " " None [DefaultState] Session.with_word 2);
    [|by vm_compute].
  eapply (registering_add "ab" (Some "S1") [DefaultState; "tag"]
            Session.start 1); [|by vm_compute].
  apply (registering_new Sample.grammar). by vm_compute.
Qed.

Lemma running_ready (input : string) : running "" (Session.ready input).
Proof.
  apply running_push, running_prepare, registering_with_blank.
Qed.

Lemma scanning_phase_is_ready_witness :
  running "" (Session.ready "ab") ∧
  registry_aligned true (Session.ready "ab") ∧
  current_state_registered (Session.ready "ab") ∧
  ∀ current_input below,
    _input_stack (Session.ready "ab") = current_input :: below →
    at_end current_input = false →
    (Z.of_nat (String.length (stream current_input)) ≤ INT_MAX)%Z →
    ∃ info, scanning (Session.ready "ab") current_input below info.
Proof.
  split; [exact (running_ready "ab")|].
  exact (scanning_phase_is_ready "" _ (running_ready "ab")).
Defined.

Lemma next_token_changes_only_the_active_stream_witness :
  next_token "" 2 (Sample.lexer " abc")
  = Some (Done (fst (Sample.call 2 (Sample.lexer " abc")),
                snd (Sample.call 2 (Sample.lexer " abc")))) ∧
  _grammar (snd (Sample.call 2 (Sample.lexer " abc")))
  = _grammar (Sample.lexer " abc") ∧
  _tokens (snd (Sample.call 2 (Sample.lexer " abc")))
  = _tokens (Sample.lexer " abc") ∧
  _state_info (snd (Sample.call 2 (Sample.lexer " abc")))
  = _state_info (Sample.lexer " abc") ∧
  match _input_stack (Sample.lexer " abc") with
  | [] => fst (Sample.call 2 (Sample.lexer " abc")) = None ∧
          snd (Sample.call 2 (Sample.lexer " abc")) = Sample.lexer " abc"
  | current_input :: below =>
      ∃ current_input',
        _input_stack (snd (Sample.call 2 (Sample.lexer " abc")))
        = current_input' :: below ∧
        content current_input' = content current_input
  end.
Proof.
  assert (H1 : next_token "" 2 (Sample.lexer " abc")
    = Some (Done (fst (Sample.call 2 (Sample.lexer " abc")),
                  snd (Sample.call 2 (Sample.lexer " abc")))))
    by by vm_compute.
  split; [exact H1|].
  exact (next_token_changes_only_the_active_stream "" 2 _ _ _ H1).
Defined.

Lemma cursor_only_moves_forward_witness :
  next_token "" 2 (Sample.lexer " abc")
  = Some (Done (fst (Sample.call 2 (Sample.lexer " abc")),
                snd (Sample.call 2 (Sample.lexer " abc")))) ∧
  _input_stack (Sample.lexer " abc") = Sample.pushed " abc" :: [] ∧
  ∃ current_input' k,
    _input_stack (snd (Sample.call 2 (Sample.lexer " abc")))
    = current_input' :: [] ∧
    k ≤ String.length (stream (Sample.pushed " abc")) ∧
    stream current_input' = remove_prefix k (stream (Sample.pushed " abc")) ∧
    String.length (stream current_input')
    = String.length (stream (Sample.pushed " abc")) - k ∧
    match fst (Sample.call 2 (Sample.lexer " abc")) with
    | Some m => match_length m ≤ k
    | None => True
    end ∧
    (at_end (Sample.pushed " abc") = true → at_end current_input' = true).
Proof.
  assert (H1 : next_token "" 2 (Sample.lexer " abc")
    = Some (Done (fst (Sample.call 2 (Sample.lexer " abc")),
                  snd (Sample.call 2 (Sample.lexer " abc")))))
    by by vm_compute.
  assert (H2 : _input_stack (Sample.lexer " abc")
               = Sample.pushed " abc" :: []) by by vm_compute.
  split; [exact H1|]. split; [exact H2|].
  exact (cursor_only_moves_forward "" 2 _ _ _ _ _ H1 H2).
Defined.

(** The call skips the blank and returns [S2] for [abc], with the text
    the action was given. *)
Example blank_then_abc :
  fst (Sample.call 2 (Sample.lexer " abc"))
  = Some {| symbol := "S2"; value := "abc"; match_length := 3 |} ∧
  _input_stack (snd (Sample.call 2 (Sample.lexer " abc")))
  = [{| content := " abc"; stream := ""; at_end := false |}].
Proof. split; by vm_compute. Qed.

Lemma returned_match_is_a_registered_token_witness :
  next_token "" 2 (Sample.lexer " abc")
  = Some (Done (Some {| symbol := "S2"; value := "abc";
                        match_length := 3 |},
                snd (Sample.call 2 (Sample.lexer " abc")))) ∧
  _input_stack (Sample.lexer " abc") = Sample.pushed " abc" :: [] ∧
  ({| symbol := "S2"; value := "abc"; match_length := 3 |}
   = end_of_input_match "" (Sample.lexer " abc") ∨
   ∃ k state info i p token,
     _state_info (Sample.lexer " abc") !! state = Some info ∧
     tokens info !! i = Some p ∧
     _tokens (Sample.lexer " abc") !! p = Some token ∧
     get_symbol token
     = Some (symbol {| symbol := "S2"; value := "abc";
                       match_length := 3 |}) ∧
     k + match_length {| symbol := "S2"; value := "abc";
                         match_length := 3 |}
     ≤ String.length (stream (Sample.pushed " abc")) ∧
     value {| symbol := "S2"; value := "abc"; match_length := 3 |}
     = match get_action token with
       | Some f =>
           f (string_view
                (remove_prefix k (stream (Sample.pushed " abc")))
                (match_length {| symbol := "S2"; value := "abc";
                                 match_length := 3 |}))
       | None => ""
       end).
Proof.
  assert (H1 : next_token "" 2 (Sample.lexer " abc")
    = Some (Done (Some {| symbol := "S2"; value := "abc";
                          match_length := 3 |},
                  snd (Sample.call 2 (Sample.lexer " abc")))))
    by by vm_compute.
  assert (H2 : _input_stack (Sample.lexer " abc")
               = Sample.pushed " abc" :: []) by by vm_compute.
  split; [exact H1|]. split; [exact H2|].
  exact (returned_match_is_a_registered_token "" 2 _ _ _ _ _ H1 H2).
Defined.

Lemma push_scan_pop_restores_all_but_state_witness :
  scanned "" (push_input_stream "#x" Sample.outer)
    (snd (Sample.call 2 (push_input_stream "#x" Sample.outer))) ∧
  uncovers_dangling (push_input_stream "#x" Sample.outer) = false ∧
  ∃ t',
    pop_input_stream
      (snd (Sample.call 2 (push_input_stream "#x" Sample.outer)))
    = Done t' ∧
    _grammar t' = _grammar Sample.outer ∧
    _tokens t' = _tokens Sample.outer ∧
    _state_info t' = _state_info Sample.outer ∧
    _input_stack t' = _input_stack Sample.outer ∧
    _current_state t'
    = _current_state
        (snd (Sample.call 2 (push_input_stream "#x" Sample.outer))) ∧
    _input_stack_capacity t'
    = _input_stack_capacity (push_input_stream "#x" Sample.outer) ∧
    _input_stack_dangling t'
    = tail (_input_stack_dangling (push_input_stream "#x" Sample.outer)).
Proof.
  assert (H1 : scanned "" (push_input_stream "#x" Sample.outer)
    (snd (Sample.call 2 (push_input_stream "#x" Sample.outer)))).
  { eapply (scanned_step "" _ 2); [by vm_compute|].
    vm_compute. apply scanned_refl. }
  assert (H2 : uncovers_dangling (push_input_stream "#x" Sample.outer)
               = false) by by vm_compute.
  split; [exact H1|]. split; [exact H2|].
  exact (push_scan_pop_restores_all_but_state "" _ _ _ H1 H2).
Defined.

(** The pushed stream [#x] switched to the state [tag]; after the pop
    the stream beneath is scanned in [tag], not in [@default] where it
    was left.  The capacity of the stack has grown from 1 to 2. *)
Example state_outlives_the_stream :
  _current_state Sample.outer = "@default" ∧
  _current_state
    (snd (Sample.call 2 (push_input_stream "#x" Sample.outer))) = "tag" ∧
  _input_stack_capacity Sample.outer = 1 ∧
  _input_stack_capacity (push_input_stream "#x" Sample.outer) = 2.
Proof. do 3 (split; [by vm_compute|]). by vm_compute. Qed.

Lemma empty_stream_is_matched_once_witness :
  _input_stack (snd (Sample.call 1 (Sample.lexer "ab")))
  = {| content := "ab"; stream := ""; at_end := false |} :: [] ∧
  at_end {| content := "ab"; stream := ""; at_end := false |} = false ∧
  String.length
    (stream {| content := "ab"; stream := ""; at_end := false |}) = 0 ∧
  next_token "" 1 (snd (Sample.call 1 (Sample.lexer "ab")))
  = Some (Done
      (fst (Sample.call 1 (snd (Sample.call 1 (Sample.lexer "ab")))),
       snd (Sample.call 1 (snd (Sample.call 1 (Sample.lexer "ab")))))) ∧
  ((fst (Sample.call 1 (snd (Sample.call 1 (Sample.lexer "ab")))) = None ∧
    snd (Sample.call 1 (snd (Sample.call 1 (Sample.lexer "ab"))))
    = snd (Sample.call 1 (Sample.lexer "ab"))) ∨
   ∃ m current_input',
     fst (Sample.call 1 (snd (Sample.call 1 (Sample.lexer "ab"))))
     = Some m ∧
     match_length m = 0 ∧
     _input_stack
       (snd (Sample.call 1 (snd (Sample.call 1 (Sample.lexer "ab")))))
     = current_input' :: [] ∧
     at_end current_input' = true ∧
     String.length (stream current_input') = 0).
Proof.
  assert (H4 : next_token "" 1 (snd (Sample.call 1 (Sample.lexer "ab")))
    = Some (Done
        (fst (Sample.call 1 (snd (Sample.call 1 (Sample.lexer "ab")))),
         snd (Sample.call 1 (snd (Sample.call 1 (Sample.lexer "ab")))))))
    by by vm_compute.
  do 3 (split; [by vm_compute|]). split; [exact H4|].
  refine (empty_stream_is_matched_once "" 1 _ _ _ _ _ _ _ _ H4);
    by vm_compute.
Defined.

Lemma empty_skip_match_never_returns_witness :
  scanning (Session.stuck "d") (Sample.pushed "d") [] Session.stuck_info ∧
  (∃ i, is_Some (match_at (Session.stuck "d") Session.stuck_info
                   (stream (Sample.pushed "d")) i)) ∧
  select_best (Session.stuck "d") Session.stuck_info
    (stream (Sample.pushed "d"))
    (Set_Match (re_set Session.stuck_info) (stream (Sample.pushed "d")))
  = Done (1, 0%Z) ∧
  _tokens (Session.stuck "d") !! 1 = Some Session.empty_skip ∧
  get_symbol Session.empty_skip = None ∧
  get_transition_to_state Session.empty_skip = None ∧
  String.length (stream (Sample.pushed "d")) ≠ 0 ∧
  ∀ fuel, next_token "" fuel (Session.stuck "d") = None.
Proof.
  assert (H1 : scanning (Session.stuck "d") (Sample.pushed "d") []
                 Session.stuck_info) by (split; by vm_compute).
  assert (H2 : ∃ i, is_Some (match_at (Session.stuck "d")
                  Session.stuck_info (stream (Sample.pushed "d")) i))
    by (exists 1; vm_compute; eauto).
  assert (H7 : String.length (stream (Sample.pushed "d")) ≠ 0)
    by (simpl; lia).
  split; [exact H1|]. split; [exact H2|].
  do 4 (split; [by vm_compute|]). split; [exact H7|].
  refine (empty_skip_match_never_returns "" _ _ _ _ _ Session.empty_skip
            H1 H2 _ _ _ _ H7); by vm_compute.
Defined.

(** The skip tokens of [Session.ready] are the blank alone, which does not
    match the empty text. *)
Lemma ready_skips_consume (input : string) :
  skips_consume (Session.ready input).
Proof.
  intros [|[|[|p]]] token text Hp Hsym; vm_compute in Hp;
    simplify_eq; simpl in *; try done.
  unfold Wildcard.wild_match.
  destruct (String.eqb " " "$") eqn:He; [by vm_compute in He|].
  by destruct (Wildcard.wild_prefix " " text).
Qed.

Lemma next_token_returns_when_skips_consume_witness :
  registry_aligned true (Session.ready " ab") ∧
  skips_consume (Session.ready " ab") ∧
  _input_stack (Session.ready " ab") = Sample.pushed " ab" :: [] ∧
  (Z.of_nat (String.length (stream (Sample.pushed " ab"))) ≤ INT_MAX)%Z ∧
  String.length (stream (Sample.pushed " ab")) < 4 ∧
  ∃ result, next_token "" 4 (Session.ready " ab") = Some result.
Proof.
  assert (H1 : registry_aligned true (Session.ready " ab"))
    by apply (running_aligned "" _ (running_ready " ab")).
  assert (H2 := ready_skips_consume " ab").
  assert (H3 : _input_stack (Session.ready " ab")
               = Sample.pushed " ab" :: []) by by vm_compute.
  assert (H4 : (Z.of_nat (String.length (stream (Sample.pushed " ab")))
                ≤ INT_MAX)%Z) by by vm_compute.
  assert (H5 : String.length (stream (Sample.pushed " ab")) < 4)
    by (simpl; lia).
  do 5 (split; [assumption|]).
  exact (next_token_returns_when_skips_consume "" 4 _ _ _ H1 H2 H3 H4 H5).
Defined.

Lemma token_index_is_its_position_witness :
  (registering Session.with_blank ∨ running "" Session.with_blank) ∧
  ∀ i token, _tokens Session.with_blank !! i = Some token →
             get_index token = i.
Proof.
  split; [left; exact registering_with_blank|].
  exact (token_index_is_its_position "" _ (or_introl registering_with_blank)).
Defined.

Lemma end_token_is_kept_witness :
  (registering Session.with_blank ∨ running "" Session.with_blank) ∧
  get_end_token Session.with_blank = Done 0 ∧
  ∃ token rest,
    _tokens Session.with_blank !! 0 = Some token ∧
    get_pattern token = "$"%string ∧
    get_symbol token
    = Some (get_end_of_input_symbol (_grammar Session.with_blank)) ∧
    tokens_of (_state_info Session.with_blank) DefaultState = 0 :: rest.
Proof.
  split; [left; exact registering_with_blank|].
  exact (end_token_is_kept "" _ (or_introl registering_with_blank)).
Defined.

Lemma registry_entries_are_well_formed_witness :
  (registering (Session.ready "ab") ∨ running "" (Session.ready "ab")) ∧
  ∀ k info, _state_info (Session.ready "ab") !! k = Some info →
    name info = k ∧
    (∀ p, p ∈ tokens info → p < length (_tokens (Session.ready "ab"))) ∧
    length (elem_ (re_set info)) = length (tokens info).
Proof.
  split; [right; exact (running_ready "ab")|].
  exact (registry_entries_are_well_formed "" _
           (or_intror (running_ready "ab"))).
Defined.

Lemma registering_start : registering Session.start.
Proof. apply (registering_new Sample.grammar). by vm_compute. Qed.

Lemma add_token_completes_iff_pattern_parses_witness :
  registering Session.start ∧
  (re_ok "ab" = true ∨ [DefaultState; "tag"] = [] →
   ∃ t', add_token "ab" (Some "S1") [DefaultState; "tag"] Session.start
         = Done (length (_tokens Session.start), t')) ∧
  (re_ok "ab" = false → [DefaultState; "tag"] ≠ [] →
   add_token "ab" (Some "S1") [DefaultState; "tag"] Session.start
   = AssertionFailed).
Proof.
  split; [exact registering_start|].
  exact (add_token_completes_iff_pattern_parses Session.start "ab"
           (Some "S1") [DefaultState; "tag"] registering_start).
Defined.

Lemma add_token_appends_to_each_named_state_witness :
  add_token "ab" (Some "S1") [DefaultState; "tag"] Session.start
  = Done (1, Session.with_word) ∧
  1 = length (_tokens Session.start) ∧
  _tokens Session.with_word
  = _tokens Session.start
    ++ [{| get_index := 1; get_pattern := "ab"; get_symbol := Some "S1";
           get_action := None; get_transition_to_state := None |}] ∧
  (∀ k, tokens_of (_state_info Session.with_word) k
        = tokens_of (_state_info Session.start) k
          ++ replicate
               (length (filter (eq k) [DefaultState; "tag"])) 1) ∧
  (∀ k, is_Some (_state_info Session.with_word !! k) ↔
        is_Some (_state_info Session.start !! k)
        ∨ k ∈ [DefaultState; "tag"]) ∧
  (∀ k, k ∉ [DefaultState; "tag"] →
        _state_info Session.with_word !! k
        = _state_info Session.start !! k) ∧
  _input_stack Session.with_word = _input_stack Session.start ∧
  _current_state Session.with_word = _current_state Session.start.
Proof.
  assert (H1 : add_token "ab" (Some "S1") [DefaultState; "tag"]
                 Session.start = Done (1, Session.with_word))
    by by vm_compute.
  split; [exact H1|].
  exact (add_token_appends_to_each_named_state _ _ _ _ _ _ H1).
Defined.

(** The registry after the two registrations. *)
Example session_registry :
  tokens_of (_state_info Session.with_blank) DefaultState = [0; 1; 2] ∧
  tokens_of (_state_info Session.with_blank) "tag" = [1] ∧
  patterns_of (_state_info Session.with_blank) DefaultState
  = ["$"; "ab"; " "]%string.
Proof. repeat split; by vm_compute. Qed.


End session.

Section reading_sample.
#[local] Existing Instance Doubling.storage.

Lemma push_input_stream_buffers_everything_witness :
  String.length (unread {| unread := "ab cd"; good := true |})
  < 1 * block_size ∧
  push_input_stream_from 2 {| unread := "ab cd"; good := true |}
    Sample.nothing
  = Some (push_input_stream
            (if good {| unread := "ab cd"; good := true |}
             then unread {| unread := "ab cd"; good := true |}
             else EmptyString) Sample.nothing) ∧
  (_input_stack <$>
     push_input_stream_from 2 {| unread := "ab cd"; good := true |}
       Sample.nothing)
  = Some ({| content := if good {| unread := "ab cd"; good := true |}
                        then unread {| unread := "ab cd"; good := true |}
                        else EmptyString;
             stream := if good {| unread := "ab cd"; good := true |}
                       then unread {| unread := "ab cd"; good := true |}
                       else EmptyString;
             at_end := false |} :: _input_stack Sample.nothing).
Proof.
  assert (H1 : String.length (unread {| unread := "ab cd"; good := true |})
               < 1 * block_size) by (vm_compute; lia).
  split; [exact H1|].
  exact (push_input_stream_buffers_everything 1 _ Sample.nothing H1).
Defined.

End reading_sample.
